(** * Entity cloner: a verified model of [cloner.py]

    The development embeds the three classes of [cloner.py] ([Entity],
    [EntityGraph], [EntityCloner]) and the function [construct_output], and
    proves the properties of the breadth-first cloning algorithm.

    Representation choices.
    - Python [int] ids are [Z]; [str] is [string]; an absent or [None]
      description is [None] (a description is [None] or a string).
    - The [entities] dict is a [gmap Z Entity], the [visited] dict a
      [gmap Z Z]; the [children] and [start_parents] sets are [gset Z].
      Iterating a dict or a set uses [map_to_list] and [elements]: some
      fixed order on which nothing below depends.
    - An [Entity] object is owned by exactly one graph and is only ever
      reached through that graph ([add_link] stores [self.entities[to]]), so
      a reference to it inside a [children] set is represented by its key in
      the owning graph's [entities] map.  For such a reference,
      [child.entity_id] is the key, and [child.name], [child.description]
      and [child.children] are read from the map ([wf_id] below: the entity
      stored under a key carries that key as its id).  Ids are unique in a
      graph, so a set of entities hashed by (id, name, description) is the
      set of their ids.
    - The two [while] loops take fuel.  [generate_id] computes its own from
      the number of ids in use and is proved never to exhaust it;
      [clone_subgraph] takes it as an argument, one unit per entity
      dequeued.
    - Methods mutate [self]; they are functions in a state-and-exception
      monad [M S A], so that the state left behind by a raised exception is
      part of the result. *)

From stdpp Require Import base option list gmap strings fin_maps fin_sets relations.
From Stdlib Require Import ZArith Lia Sorted.

Local Open Scope Z_scope.

(** ** Exceptions and the state monad *)

(** The exceptions the program raises.  The two [ValueError]s are told apart
    by their message, as a caller reading the message would. *)
Inductive exn : Type :=
  | ValueError_already_present (entity_id : Z)
      (* ValueError('Entity with id: %s already present') *)
  | ValueError_not_in_provided (start : Z)
      (* ValueError('Entity with id %s is not in provided entities') *)
  | LookupError_no_entity (entity_id : Z)
      (* LookupError('There is no entity with id: %s') *)
  | AttributeError
      (* attribute access on None *)
  | KeyError (key : Z).
      (* subscript of a dict at a missing key *)

Inductive outcome (A : Type) : Type :=
  | Ok (a : A)
  | Raise (e : exn)
  | OutOfFuel.
Arguments Ok {A} a.
Arguments Raise {A} e.
Arguments OutOfFuel {A}.

Definition M (S A : Type) : Type := S → outcome A * S.

Definition M_ret {S A} (a : A) : M S A := λ s, (Ok a, s).

Definition M_bind {S A B} (m : M S A) (k : A → M S B) : M S B :=
  λ s, match m s with
       | (Ok a, s') => k a s'
       | (Raise e, s') => (Raise e, s')
       | (OutOfFuel, s') => (OutOfFuel, s')
       end.

(** stdpp's monad notations: [x ← m; k] and [m;; k]. *)
#[global] Instance M_mret {S} : MRet (M S) := λ A a, M_ret a.
#[global] Instance M_mbind {S} : MBind (M S) := λ A B k m, M_bind m k.

Definition get {S} : M S S := λ s, (Ok s, s).
Definition put {S} (s : S) : M S unit := λ _, (Ok tt, s).
Definition raise {S A} (e : exn) : M S A := λ s, (Raise e, s).
Definition out_of_fuel {S A} : M S A := λ s, (OutOfFuel, s).

(** [for x in l: body x] *)
Fixpoint for_each {S A} (l : list A) (body : A → M S unit) : M S unit :=
  match l with
  | [] => M_ret tt
  | x :: l' => body x;; for_each l' body
  end.

(** ** class Entity *)

Record Entity : Type := mkEntity {
  entity_id : Z;
  name : string;
  description : option string;
  children : gset Z
}.

(** [Entity.__init__] with the default [children=set()], copied by
    [set(children)]. *)
Definition Entity_init (entity_id : Z) (name : string)
    (description : option string) : Entity :=
  mkEntity entity_id name description ∅.

(** [entity.children.add(...)] *)
Definition add_child (child : Z) (e : Entity) : Entity :=
  mkEntity (entity_id e) (name e) (description e) ({[child]} ∪ children e).

(** The dict produced by [Entity.to_dict]: the key [description] is present
    or not. *)
Record EntityRecord : Type := mkEntityRecord {
  r_entity_id : Z;
  r_name : string;
  r_description : option string
}.

(** Truthiness of a description: [None] and the empty string are falsy. *)
Definition truthy (description : option string) : bool :=
  match description with
  | None => false
  | Some s => negb (String.eqb s "")
  end.

Definition Entity_to_dict (self : Entity) : EntityRecord :=
  mkEntityRecord (entity_id self) (name self)
    (if truthy (description self) then description self else None).

(** ** class EntityGraph *)

Record EntityGraph : Type := mkGraph {
  start : Z;
  entities : gmap Z Entity;
  start_parents : gset Z
}.

Definition EntityGraph_init (start : Z) : EntityGraph := mkGraph start ∅ ∅.

Definition set_entities (f : gmap Z Entity → gmap Z Entity)
    (g : EntityGraph) : EntityGraph :=
  mkGraph (start g) (f (entities g)) (start_parents g).

Definition set_start_parents (f : gset Z → gset Z)
    (g : EntityGraph) : EntityGraph :=
  mkGraph (start g) (entities g) (f (start_parents g)).

(** [k in d] for a dict [d] *)
Definition contains {V} (k : Z) (d : gmap Z V) : bool :=
  match d !! k with Some _ => true | None => false end.

Definition has_entity (self : EntityGraph) (entity_id : Z) : bool :=
  contains entity_id (entities self).

Definition get_entity (self : EntityGraph) (entity_id : Z) : option Entity :=
  entities self !! entity_id.

Definition get_start (self : EntityGraph) : option Entity :=
  get_entity self (start self).

Definition add_entity (entity_id : Z) (name : string)
    (description : option string) : M EntityGraph unit :=
  self ← get;
  if contains entity_id (entities self)
  then raise (ValueError_already_present entity_id)
  else put (set_entities
              (insert entity_id (Entity_init entity_id name description)) self).

Definition add_link (from_entity to_entity : Z) : M EntityGraph unit :=
  self ← get;
  if negb (contains from_entity (entities self))
  then raise (LookupError_no_entity from_entity)
  else if negb (contains to_entity (entities self))
  then raise (LookupError_no_entity to_entity)
  else
    put (set_entities (alter (add_child to_entity) from_entity) self);;
    if bool_decide (to_entity = start self)
    then self ← get;
         put (set_start_parents (union {[from_entity]}) self)
    else M_ret tt.

(** The link dicts [{'from': ..., 'to': ...}] and the data record. *)
Record LinkRecord : Type := mkLink {
  l_from : Z;
  l_to : Z
}.

Record Data : Type := mkData {
  d_entities : list EntityRecord;
  d_links : list LinkRecord
}.

Definition build_body (start : Z) (data : Data) : M EntityGraph unit :=
  for_each (d_entities data)
    (λ entity, add_entity (r_entity_id entity) (r_name entity)
                 (r_description entity));;
  inst ← get;
  (if negb (contains start (entities inst))
   then raise (ValueError_not_in_provided start)
   else M_ret tt);;
  for_each (d_links data) (λ link, add_link (l_from link) (l_to link)).

(** The class method returns the new instance, or raises. *)
Definition build_from_data (start : Z) (data : Data) : outcome EntityGraph :=
  match build_body start data (EntityGraph_init start) with
  | (Ok _, inst) => Ok inst
  | (Raise e, _) => Raise e
  | (OutOfFuel, _) => OutOfFuel
  end.

(** The links emitted for one entity: one per child. *)
Definition entity_links (entity : Entity) : list LinkRecord :=
  (λ child, mkLink (entity_id entity) child) <$> elements (children entity).

Definition values (d : gmap Z Entity) : list Entity :=
  snd <$> map_to_list d.

Definition EntityGraph_to_dict (self : EntityGraph) : Data :=
  mkData (Entity_to_dict <$> values (entities self))
         (values (entities self) ≫= entity_links).

(** ** class EntityCloner *)

Record EntityCloner : Type := mkCloner {
  initial_graph : EntityGraph;
  cloned_graph : option EntityGraph;
  current_id : Z          (* the attribute [_current_id] *)
}.

Definition EntityCloner_init (initial_graph : EntityGraph) : EntityCloner :=
  mkCloner initial_graph None 0.

Definition set_current_id (n : Z) (c : EntityCloner) : EntityCloner :=
  mkCloner (initial_graph c) (cloned_graph c) n.

Definition set_cloned_graph (g : EntityGraph) (c : EntityCloner) : EntityCloner :=
  mkCloner (initial_graph c) (Some g) (current_id c).

(** The loop condition of [generate_id]: [cloned_graph] is falsy only while
    it is [None]. *)
Definition id_taken (self : EntityCloner) : bool :=
  has_entity (initial_graph self) (current_id self)
  || match cloned_graph self with
     | Some g => has_entity g (current_id self)
     | None => false
     end.

Fixpoint generate_id_loop (fuel : nat) : M EntityCloner unit :=
  self ← get;
  if id_taken self
  then match fuel with
       | O => out_of_fuel
       | S fuel' =>
           put (set_current_id (current_id self + 1) self);;
           generate_id_loop fuel'
       end
  else M_ret tt.

(** Every iteration of the [while] passes one id that is taken, so the
    number of ids in use bounds the iterations. *)
Definition ids_in_use (self : EntityCloner) : nat :=
  (size (entities (initial_graph self))
   + match cloned_graph self with
     | Some g => size (entities g)
     | None => O
     end)%nat.

Definition generate_id : M EntityCloner Z :=
  self ← get;
  put (set_current_id (current_id self + 1) self);;
  generate_id_loop (ids_in_use self);;
  self ← get;
  M_ret (current_id self).

(** A method call on [self.cloned_graph]. *)
Definition on_cloned {A} (m : M EntityGraph A) : M EntityCloner A :=
  λ self, match cloned_graph self with
          | None => (Raise AttributeError, self)
          | Some g => let '(r, g') := m g in (r, set_cloned_graph g' self)
          end.

(** [d[k]] for the [visited] dict. *)
Definition subscript {S} (d : gmap Z Z) (k : Z) : M S Z :=
  match d !! k with
  | Some v => M_ret v
  | None => raise (KeyError k)
  end.

(** The local variables of the traversal. *)
Record Locals : Type := mkLocals {
  visited : gmap Z Z;
  queue : list Entity
}.

(** One pass of the body of [for child in current.children], threading the
    locals.  The child is read through its reference; in a graph object
    every reference resolves ([wf_children] below), so the [KeyError] of the
    first branch stands for a state the program cannot be in. *)
Definition visit_child (current : Entity) (child_ref : Z) (loc : Locals)
    : M EntityCloner Locals :=
  self ← get;
  match entities (initial_graph self) !! child_ref with
  | None => raise (KeyError child_ref)
  | Some child =>
      if negb (contains child_ref (visited loc))
      then
        cloned_id ← generate_id;
        on_cloned (add_entity cloned_id (name child) (description child));;
        parent ← subscript (visited loc) (entity_id current);
        on_cloned (add_link parent cloned_id);;
        M_ret (mkLocals (<[child_ref := cloned_id]> (visited loc))
                        (queue loc ++ [child]))
      else
        parent ← subscript (visited loc) (entity_id current);
        target ← subscript (visited loc) child_ref;
        on_cloned (add_link parent target);;
        M_ret loc
  end.

Fixpoint visit_children (current : Entity) (refs : list Z) (loc : Locals)
    : M EntityCloner Locals :=
  match refs with
  | [] => M_ret loc
  | child_ref :: refs' =>
      loc' ← visit_child current child_ref loc;
      visit_children current refs' loc'
  end.

(** [while not queue.empty()], one unit of fuel per dequeued entity. *)
Fixpoint traverse (fuel : nat) (loc : Locals) : M EntityCloner Locals :=
  match queue loc with
  | [] => M_ret loc
  | current :: rest =>
      match fuel with
      | O => out_of_fuel
      | S fuel' =>
          loc' ← visit_children current (elements (children current))
                    (mkLocals (visited loc) rest);
          traverse fuel' loc'
      end
  end.

(** [clone_subgraph] up to its [return], keeping the final [visited]. *)
Definition clone_traversal (fuel : nat) : M EntityCloner Locals :=
  self ← get;
  let current := get_start (initial_graph self) in
  cloned_start ← generate_id;
  self ← get;
  put (set_cloned_graph (EntityGraph_init cloned_start) self);;
  match current with
  | None => raise AttributeError
  | Some current =>
      on_cloned (add_entity cloned_start (name current) (description current));;
      traverse fuel (mkLocals {[entity_id current := cloned_start]} [current])
  end.

Definition clone_subgraph (fuel : nat) : M EntityCloner EntityGraph :=
  clone_traversal fuel;;
  self ← get;
  match cloned_graph self with
  | Some g => M_ret g
  | None => raise AttributeError
  end.

(** ** construct_output *)

Definition construct_output (initial cloned : EntityGraph) : Data :=
  let initial_dict := EntityGraph_to_dict initial in
  let cloned_dict := EntityGraph_to_dict cloned in
  let start_parents :=
    (λ parent, mkLink parent (start cloned)) <$> elements (start_parents initial) in
  mkData (d_entities initial_dict ++ d_entities cloned_dict)
         (d_links initial_dict ++ d_links cloned_dict ++ start_parents).

(** ** Vocabulary of the specification *)

(** A link [u → w] of a graph: [w] is among the children of the entity
    stored under [u]. *)
Definition edge (g : EntityGraph) (u w : Z) : Prop :=
  ∃ e, entities g !! u = Some e ∧ w ∈ children e.

(** The entities reachable from the start of [g], the start included. *)
Definition reachable (g : EntityGraph) (u : Z) : Prop :=
  rtc (edge g) (start g) u.

(** A graph object comes into being by [EntityGraph(start)] followed by
    calls of its two mutating methods.  A call that raises leaves the caller
    with the object as the method left it. *)
Inductive call : Type :=
  | Add_entity (entity_id : Z) (name : string) (description : option string)
  | Add_link (from_entity to_entity : Z).

Definition perform (c : call) : M EntityGraph unit :=
  match c with
  | Add_entity entity_id name description => add_entity entity_id name description
  | Add_link from_entity to_entity => add_link from_entity to_entity
  end.

Definition after_calls (calls : list call) (g : EntityGraph) : EntityGraph :=
  foldl (λ g c, snd (perform c g)) g calls.

Definition graph_of (start : Z) (calls : list call) : EntityGraph :=
  after_calls calls (EntityGraph_init start).

(** [p] made a successful [add_link(p, target)] call in [calls]. *)
Definition linked_to (start : Z) (calls : list call) (p target : Z) : Prop :=
  ∃ before after,
    calls = before ++ Add_link p target :: after
    ∧ fst (add_link p target (graph_of start before)) = Ok tt.

(** What every graph object satisfies: keys agree with the stored ids,
    children are entities of the graph, and [start_parents] holds the
    sources of the links into [start]. *)
Record wf (g : EntityGraph) : Prop := mkWf {
  wf_id : ∀ k e, entities g !! k = Some e → entity_id e = k;
  wf_children : ∀ k e c,
    entities g !! k = Some e → c ∈ children e → is_Some (entities g !! c);
  wf_start_parents : ∀ p, p ∈ start_parents g ↔ edge g p (start g)
}.

(** [generate_id] called once per element of [between]; before each call
    the caller has left [cloned_graph] in the given state. *)
Fixpoint generate_ids (between : list (option EntityGraph))
    : M EntityCloner (list Z) :=
  match between with
  | [] => M_ret []
  | cg :: rest =>
      self ← get;
      put (mkCloner (initial_graph self) cg (current_id self));;
      n ← generate_id;
      ns ← generate_ids rest;
      M_ret (n :: ns)
  end.

(** The serialized form drops an empty description. *)
Definition normalize_entity (e : Entity) : Entity :=
  mkEntity (entity_id e) (name e)
    (if truthy (description e) then description e else None) (children e).

Definition normalize (g : EntityGraph) : EntityGraph :=
  mkGraph (start g) (normalize_entity <$> entities g) (start_parents g).

(** ** Invariant of the traversal *)

(** The links of the initial graph that the traversal still has to copy:
    those of the entity being expanded whose child is yet to be visited, and
    all links of the queued entities. *)
Definition pending (current : Z) (remaining : list Z) (q : list Entity)
    (u w : Z) : Prop :=
  (u = current ∧ w ∈ remaining) ∨ u ∈ (entity_id <$> q).

Record clone_inv (g cg : EntityGraph) (v : gmap Z Z)
    (todo : Z → Z → Prop) : Prop := mkInv {
  inv_inj : ∀ u1 u2 u', v !! u1 = Some u' → v !! u2 = Some u' → u1 = u2;
  inv_entity : ∀ u u', v !! u = Some u' →
    ∃ e e', entities g !! u = Some e ∧ entities cg !! u' = Some e'
            ∧ entity_id e' = u' ∧ name e' = name e
            ∧ description e' = description e;
  inv_surj : ∀ u', is_Some (entities cg !! u') → ∃ u, v !! u = Some u';
  inv_fresh : ∀ u', is_Some (entities cg !! u') → entities g !! u' = None;
  inv_reach : ∀ u, is_Some (v !! u) → reachable g u;
  inv_sound : ∀ a b, edge cg a b →
    ∃ u w, v !! u = Some a ∧ v !! w = Some b ∧ edge g u w;
  inv_complete : ∀ u u' w, v !! u = Some u' → edge g u w → ¬ todo u w →
    ∃ w', v !! w = Some w' ∧ edge cg u' w';
  inv_size : size (entities cg) = size v
}.

Definition queue_ok (g : EntityGraph) (v : gmap Z Z) (q : list Entity) : Prop :=
  ∀ e, e ∈ q → entities g !! entity_id e = Some e ∧ is_Some (v !! entity_id e).

(** The ids [generate_id] has to avoid. *)
Definition ids_used (g : EntityGraph) (cgo : option EntityGraph) : gset Z :=
  dom (entities g)
  ∪ match cgo with Some cg => dom (entities cg) | None => ∅ end.

(** A cloner method that leaves [initial_graph] as it found it, however it
    ends. *)
Definition keeps_initial {A} (m : M EntityCloner A) : Prop :=
  ∀ c, initial_graph (snd (m c)) = initial_graph c.

(** An id is free in the initial graph and in the cloned graph of the
    moment, if there is one. *)
Definition free_at (g : EntityGraph) (id : Z) (cgo : option EntityGraph) : Prop :=
  has_entity g id = false
  ∧ match cgo with Some cg => has_entity cg id = false | None => True end.

(** The calls [build_from_data] makes for a data record. *)
Definition entity_call (r : EntityRecord) : call :=
  Add_entity (r_entity_id r) (r_name r) (r_description r).

Definition link_call (l : LinkRecord) : call :=
  Add_link (l_from l) (l_to l).

Definition calls_of (data : Data) : list call :=
  (entity_call <$> d_entities data) ++ (link_call <$> d_links data).

Definition ids_of (data : Data) : list Z := r_entity_id <$> d_entities data.

(** ** Example inputs *)

(** The cycle of the test suite: 1 → 2 → 3 → 1, cloned from 1. *)
Definition cycle_calls : list call :=
  [Add_entity 1 "Name1" None; Add_entity 2 "Name2" None;
   Add_entity 3 "Name3" None;
   Add_link 1 2; Add_link 2 3; Add_link 3 1].

Definition cycle_graph : EntityGraph := graph_of 1 cycle_calls.

(** One entity whose description is the empty string. *)
Definition blank_calls : list call := [Add_entity 1 "A" (Some "")].

Definition blank_graph : EntityGraph := graph_of 1 blank_calls.

(** A graph whose start was never added. *)
Definition startless_graph : EntityGraph := graph_of 5 [Add_entity 1 "A" None].

(** The clone the test suite expects for the cycle. *)
Definition cycle_clone : EntityGraph :=
  graph_of 4
    [Add_entity 4 "Name1" None; Add_entity 5 "Name2" None; Add_link 4 5;
     Add_entity 6 "Name3" None; Add_link 5 6; Add_link 6 4].

(** Ids 1, 2, 3 and 5 in use, as in the test of [generate_id]. *)
Definition gap_graph : EntityGraph :=
  graph_of 1
    [Add_entity 1 "Name1" None; Add_entity 2 "Name2" None;
     Add_entity 3 "Name3" None; Add_entity 5 "Name5" None].

(** One entity linked to itself. *)
Definition loop_graph : EntityGraph :=
  graph_of 1 [Add_entity 1 "A" None; Add_link 1 1].

(** A record that lists id 1 twice. *)
Definition twice_data : Data :=
  mkData [mkEntityRecord 1 "A" None; mkEntityRecord 1 "B" None] [].

(** ** The rest of the program *)

(** [Entity.__eq__]: [other] is an [Entity] by its type; the three
    comparisons are chained by [and]. *)
Definition Entity_eq (self other : Entity) : bool :=
  bool_decide (entity_id self = entity_id other)
  && bool_decide (name self = name other)
  && bool_decide (description self = description other).

(** [Entity.__hash__]: the built-in [hash] of the tuple, whatever it is. *)
Section hashing.
Variable hash : Z * string * option string → Z.

Definition Entity_hash (self : Entity) : Z :=
  hash (entity_id self, name self, description self).

End hashing.

(** The body of the script between reading the file and printing:
    [build_from_data], [EntityCloner(...).clone_subgraph()],
    [construct_output].  An exception ends it. *)
Definition main (entity_id : Z) (data : Data) (fuel : nat) : outcome Data :=
  match build_from_data entity_id data with
  | Ok initial_graph =>
      match clone_subgraph fuel (EntityCloner_init initial_graph) with
      | (Ok cloned_graph, _) =>
          Ok (construct_output initial_graph cloned_graph)
      | (Raise e, _) => Raise e
      | (OutOfFuel, _) => OutOfFuel
      end
  | Raise e => Raise e
  | OutOfFuel => OutOfFuel
  end.

(** What [Entity.to_dict] makes of the entity a record describes. *)
Definition normalize_record (r : EntityRecord) : EntityRecord :=
  mkEntityRecord (r_entity_id r) (r_name r)
    (if truthy (r_description r) then r_description r else None).

(** A cloner method that leaves the cloned graph, when there is one, a
    graph object. *)
Definition keeps_cloned_wf {A} (m : M EntityCloner A) : Prop :=
  ∀ c, (∀ cg, cloned_graph c = Some cg → wf cg) →
       ∀ cg', cloned_graph (snd (m c)) = Some cg' → wf cg'.

(** The cloned ids are the ids up to the counter that the initial graph
    leaves free. *)
Definition dense (c : EntityCloner) : Prop :=
  0 ≤ current_id c
  ∧ ∀ cg, cloned_graph c = Some cg →
      ∀ m, is_Some (entities cg !! m)
           ↔ 0 < m ≤ current_id c ∧ entities (initial_graph c) !! m = None.

(** The data of the test of [build_from_data], and a record with no
    entity. *)
Definition test_data : Data :=
  mkData [mkEntityRecord 1 "EntityA" None; mkEntityRecord 2 "EntityB" None;
          mkEntityRecord 3 "EntityC" (Some "More details about entity C")]
         [mkLink 1 2; mkLink 2 3; mkLink 3 1].

(** ** The monad and the dictionaries *)

Ltac unfold_M :=
  unfold mbind, M_mbind, M_bind, mret, M_mret, M_ret, get, put, raise,
    out_of_fuel in *.

Lemma contains_true {V} (k : Z) (d : gmap Z V) :
  contains k d = true ↔ is_Some (d !! k).
Proof.
  unfold contains. destruct (d !! k); split; intros H; eauto.
  - discriminate.
  - by destruct H.
Qed.

Lemma contains_false {V} (k : Z) (d : gmap Z V) :
  contains k d = false ↔ d !! k = None.
Proof. unfold contains. destruct (d !! k); split; intros H; done. Qed.

(** ** [add_entity] and [add_link] *)

Lemma add_entity_new (g : EntityGraph) k n d :
  entities g !! k = None →
  add_entity k n d g
  = (Ok tt, mkGraph (start g) (<[k := Entity_init k n d]> (entities g))
                    (start_parents g)).
Proof.
  intros H. unfold add_entity. unfold_M.
  apply contains_false in H. by rewrite H.
Qed.

Lemma add_entity_present (g : EntityGraph) k n d :
  is_Some (entities g !! k) →
  add_entity k n d g = (Raise (ValueError_already_present k), g).
Proof.
  intros H. unfold add_entity. unfold_M.
  apply contains_true in H. by rewrite H.
Qed.

Lemma add_link_present (g : EntityGraph) a b :
  is_Some (entities g !! a) → is_Some (entities g !! b) →
  add_link a b g
  = (Ok tt, mkGraph (start g) (alter (add_child b) a (entities g))
                    (if bool_decide (b = start g)
                     then {[a]} ∪ start_parents g else start_parents g)).
Proof.
  intros Ha Hb. unfold add_link. unfold_M.
  apply contains_true in Ha, Hb. rewrite Ha, Hb. simpl.
  by destruct (bool_decide (b = start g)).
Qed.

Lemma add_link_absent_from (g : EntityGraph) a b :
  entities g !! a = None →
  add_link a b g = (Raise (LookupError_no_entity a), g).
Proof.
  intros Ha. unfold add_link. unfold_M.
  apply contains_false in Ha. by rewrite Ha.
Qed.

Lemma add_link_absent_to (g : EntityGraph) a b :
  is_Some (entities g !! a) → entities g !! b = None →
  add_link a b g = (Raise (LookupError_no_entity b), g).
Proof.
  intros Ha Hb. unfold add_link. unfold_M.
  apply contains_true in Ha. apply contains_false in Hb. by rewrite Ha, Hb.
Qed.

(** The links of a graph after each of the two mutations. *)
Lemma edge_add_entity (g : EntityGraph) k n d sp u w :
  entities g !! k = None →
  edge (mkGraph (start g) (<[k := Entity_init k n d]> (entities g)) sp) u w
  ↔ edge g u w.
Proof.
  intros Hk. unfold edge. simpl. split.
  - intros (e & He & Hw). destruct (decide (k = u)) as [->|Hne].
    + rewrite lookup_insert_eq in He. injection He as <-. simpl in Hw.
      set_solver.
    + rewrite lookup_insert_ne in He by done. eauto.
  - intros (e & He & Hw). exists e. split; [|done].
    rewrite lookup_insert_ne; [done|]. intros ->. congruence.
Qed.

Lemma edge_add_link (g : EntityGraph) a b sp u w :
  is_Some (entities g !! a) →
  edge (mkGraph (start g) (alter (add_child b) a (entities g)) sp) u w
  ↔ edge g u w ∨ (u = a ∧ w = b).
Proof.
  intros [ea Ha]. unfold edge. simpl. split.
  - intros (e & He & Hw). destruct (decide (a = u)) as [->|Hne].
    + rewrite lookup_alter_eq, Ha in He. simpl in He. injection He as <-.
      simpl in Hw. apply elem_of_union in Hw as [Hw|Hw].
      * apply elem_of_singleton in Hw. by right.
      * left. eauto.
    + rewrite lookup_alter_ne in He by done. left. eauto.
  - intros [(e & He & Hw)|[-> ->]].
    + destruct (decide (a = u)) as [->|Hne].
      * exists (add_child b e). rewrite lookup_alter_eq, He. split; [done|].
        simpl. set_solver.
      * exists e. by rewrite lookup_alter_ne.
    + exists (add_child b ea). rewrite lookup_alter_eq, Ha. split; [done|].
      simpl. set_solver.
Qed.

(** ** Every graph object is well formed *)

Lemma wf_init (s : Z) : wf (EntityGraph_init s).
Proof.
  split; simpl.
  - intros k e H. by rewrite lookup_empty in H.
  - intros k e c H. by rewrite lookup_empty in H.
  - intros p. split; [set_solver|].
    intros (e & He & _). simpl in He. by rewrite lookup_empty in He.
Qed.

Lemma wf_add_entity (g : EntityGraph) k n d :
  wf g → entities g !! k = None →
  wf (mkGraph (start g) (<[k := Entity_init k n d]> (entities g))
              (start_parents g)).
Proof.
  intros [Hid Hch Hsp] Hk. split; simpl.
  - intros k' e He. destruct (decide (k = k')) as [->|Hne].
    + rewrite lookup_insert_eq in He. by injection He as <-.
    + rewrite lookup_insert_ne in He by done. eauto.
  - intros k' e c He Hc. destruct (decide (k = k')) as [->|Hne].
    + rewrite lookup_insert_eq in He. injection He as <-. set_solver.
    + rewrite lookup_insert_ne in He by done.
      destruct (Hch _ _ _ He Hc) as [x Hx].
      destruct (decide (k = c)) as [->|Hne'].
      * rewrite lookup_insert_eq. eauto.
      * rewrite lookup_insert_ne by done. eauto.
  - intros p. rewrite Hsp.
    symmetry. apply (edge_add_entity g k n d (start_parents g) p (start g) Hk).
Qed.

Lemma wf_add_link (g : EntityGraph) a b :
  wf g → is_Some (entities g !! a) → is_Some (entities g !! b) →
  wf (mkGraph (start g) (alter (add_child b) a (entities g))
              (if bool_decide (b = start g)
               then {[a]} ∪ start_parents g else start_parents g)).
Proof.
  intros [Hid Hch Hsp] Ha Hb. split; simpl.
  - intros k e He. destruct (decide (a = k)) as [->|Hne].
    + rewrite lookup_alter_eq in He. destruct (entities g !! k) as [e0|] eqn:E;
        [|done]. simpl in He. injection He as <-. simpl. eauto.
    + rewrite lookup_alter_ne in He by done. eauto.
  - intros k e c He Hc.
    assert (is_Some (entities g !! c)) as [x Hx].
    { destruct (decide (a = k)) as [->|Hne].
      - rewrite lookup_alter_eq in He.
        destruct (entities g !! k) as [e0|] eqn:E; [|done].
        simpl in He. injection He as <-. simpl in Hc.
        apply elem_of_union in Hc as [Hc|Hc].
        + apply elem_of_singleton in Hc. by subst.
        + eauto.
      - rewrite lookup_alter_ne in He by done. eauto. }
    destruct (decide (a = c)) as [->|Hne].
    + rewrite lookup_alter_eq, Hx. simpl. eauto.
    + rewrite lookup_alter_ne by done. eauto.
  - intros p.
    pose proof (edge_add_link g a b
      (if bool_decide (b = start g)
       then {[a]} ∪ start_parents g else start_parents g) p (start g) Ha) as E.
    simpl in E. rewrite E, <- Hsp. clear E.
    case_bool_decide as Hs.
    + rewrite elem_of_union, elem_of_singleton. subst. tauto.
    + split; [tauto|]. intros [?|[_ ?]]; [done|]. by destruct Hs.
Qed.

Lemma perform_start (c : call) (g : EntityGraph) :
  start (snd (perform c g)) = start g.
Proof.
  destruct c as [k n d|a b]; simpl.
  - destruct (entities g !! k) eqn:E.
    + by rewrite add_entity_present by eauto.
    + by rewrite add_entity_new.
  - destruct (entities g !! a) eqn:Ea.
    + destruct (entities g !! b) eqn:Eb.
      * by rewrite add_link_present by eauto.
      * by rewrite add_link_absent_to by eauto.
    + by rewrite add_link_absent_from.
Qed.

Lemma perform_wf (c : call) (g : EntityGraph) :
  wf g → wf (snd (perform c g)).
Proof.
  intros Hwf. destruct c as [k n d|a b]; simpl.
  - destruct (entities g !! k) eqn:E.
    + by rewrite add_entity_present by eauto.
    + rewrite add_entity_new by done. by apply wf_add_entity.
  - destruct (entities g !! a) eqn:Ea.
    + destruct (entities g !! b) eqn:Eb.
      * rewrite add_link_present by eauto. apply wf_add_link; eauto.
      * by rewrite add_link_absent_to by eauto.
    + by rewrite add_link_absent_from.
Qed.

Lemma after_calls_cons (c : call) (calls : list call) (g : EntityGraph) :
  after_calls (c :: calls) g = after_calls calls (snd (perform c g)).
Proof. done. Qed.

Lemma after_calls_app (calls1 calls2 : list call) (g : EntityGraph) :
  after_calls (calls1 ++ calls2) g = after_calls calls2 (after_calls calls1 g).
Proof. unfold after_calls. apply foldl_app. Qed.

Lemma after_calls_start (calls : list call) (g : EntityGraph) :
  start (after_calls calls g) = start g.
Proof.
  revert g. induction calls as [|c calls IH]; intros g; [done|].
  by rewrite after_calls_cons, IH, perform_start.
Qed.

Lemma after_calls_wf (calls : list call) (g : EntityGraph) :
  wf g → wf (after_calls calls g).
Proof.
  revert g. induction calls as [|c calls IH]; intros g Hwf; [done|].
  rewrite after_calls_cons. apply IH. by apply perform_wf.
Qed.

Lemma graph_of_start (s : Z) (calls : list call) : start (graph_of s calls) = s.
Proof. unfold graph_of. by rewrite after_calls_start. Qed.

Lemma graph_of_wf (s : Z) (calls : list call) : wf (graph_of s calls).
Proof. apply after_calls_wf, wf_init. Qed.

(** ** [generate_id] *)

Lemma id_taken_spec g cgo n :
  id_taken (mkCloner g cgo n) = true ↔ n ∈ ids_used g cgo.
Proof.
  unfold id_taken, ids_used, has_entity. simpl.
  rewrite orb_true_iff, elem_of_union, contains_true, elem_of_dom.
  destruct cgo as [cg|].
  - by rewrite contains_true, elem_of_dom.
  - rewrite elem_of_empty. split; (intros [?|?]; [by left|done]).
Qed.

Lemma ids_used_size g cgo :
  (size (ids_used g cgo)
   ≤ size (entities g)
     + match cgo with Some cg => size (entities cg) | None => O end)%nat.
Proof.
  unfold ids_used. rewrite size_union_alt, size_dom.
  apply Nat.add_le_mono_l. destruct cgo as [cg|].
  - rewrite <- (size_dom (entities cg)). apply subseteq_size.
    intros x Hx. by apply elem_of_difference in Hx as [Hx _].
  - assert (∅ ∖ dom (entities g) = (∅ : gset Z)) as ->.
    { apply set_eq. intros x. rewrite elem_of_difference, elem_of_empty.
      tauto. }
    by rewrite size_empty.
Qed.

(** The [while] loop stops, at the first id from [n] on that is free. *)
Lemma generate_id_loop_spec (fuel : nat) g cgo (n : Z) :
  (size (filter (λ x, (n ≤ x)%Z) (ids_used g cgo)) ≤ fuel)%nat →
  ∃ n', n ≤ n'
    ∧ generate_id_loop fuel (mkCloner g cgo n) = (Ok tt, mkCloner g cgo n')
    ∧ n' ∉ ids_used g cgo.
Proof.
  revert n. induction fuel as [|fuel IH]; intros n Hsize.
  - exists n. split; [lia|].
    assert (n ∉ ids_used g cgo) as Hn.
    { intros Hn. assert (n ∈ filter (λ x, n ≤ x) (ids_used g cgo)) as Hin.
      { apply elem_of_filter. split; [lia|done]. }
      assert (size (filter (λ x, n ≤ x) (ids_used g cgo)) = O) as H0 by lia.
      apply size_empty_inv in H0. apply H0 in Hin.
      by apply elem_of_empty in Hin. }
    split; [|done]. simpl. unfold_M.
    destruct (id_taken (mkCloner g cgo n)) eqn:E; [|done].
    apply id_taken_spec in E. done.
  - simpl. unfold_M. destruct (id_taken (mkCloner g cgo n)) eqn:E.
    + apply id_taken_spec in E. unfold set_current_id. simpl.
      destruct (IH (n + 1)) as (n' & Hle & Hrun & Hfree).
      { assert (filter (λ x, n + 1 ≤ x) (ids_used g cgo)
                ⊂ filter (λ x, n ≤ x) (ids_used g cgo)) as Hsub.
        { split.
          - intros x. rewrite !elem_of_filter. intros [? ?]. split; [lia|done].
          - intros Hsub. specialize (Hsub n). rewrite !elem_of_filter in Hsub.
            destruct Hsub as [? _]; [split; [lia|done]|lia]. }
        apply subset_size in Hsub. lia. }
      exists n'. split; [lia|]. split; [|done]. apply Hrun.
    + exists n. split; [lia|]. split; [done|].
      intros Hn. apply id_taken_spec in Hn. congruence.
Qed.

(** [generate_id] returns: its result is beyond the counter and free in both
    graphs, and only the counter changes. *)
Lemma generate_id_spec g cgo n :
  ∃ n', n < n'
    ∧ generate_id (mkCloner g cgo n) = (Ok n', mkCloner g cgo n')
    ∧ entities g !! n' = None
    ∧ (∀ cg, cgo = Some cg → entities cg !! n' = None).
Proof.
  destruct (generate_id_loop_spec (ids_in_use (mkCloner g cgo n)) g cgo (n + 1))
    as (n' & Hle & Hrun & Hfree).
  { etrans; [|apply ids_used_size].
    apply subseteq_size. intros x. rewrite elem_of_filter. tauto. }
  exists n'. split; [lia|]. split.
  - unfold generate_id. unfold_M. unfold set_current_id. simpl.
    simpl in Hrun. by rewrite Hrun.
  - unfold ids_used in Hfree. rewrite not_elem_of_union in Hfree.
    destruct Hfree as [Hg Hcg]. split.
    + by apply not_elem_of_dom.
    + intros cg ->. by apply not_elem_of_dom.
Qed.

(** ** The traversal keeps its invariant *)

Lemma alter_add_child_lookup (m : gmap Z Entity) a b k e :
  m !! k = Some e →
  ∃ e', alter (add_child b) a m !! k = Some e'
        ∧ entity_id e' = entity_id e ∧ name e' = name e
        ∧ description e' = description e.
Proof.
  intros Hk. destruct (decide (a = k)) as [->|Hne].
  - exists (add_child b e). by rewrite lookup_alter_eq, Hk.
  - exists e. by rewrite lookup_alter_ne.
Qed.

Lemma size_alter (f : Entity → Entity) (i : Z) (m : gmap Z Entity) :
  size (alter f i m) = size m.
Proof.
  rewrite <- !(size_dom (D := gset Z)). by rewrite dom_alter_L.
Qed.

Lemma on_cloned_run {A} (m : M EntityGraph A) g cg n r cg' :
  m cg = (r, cg') →
  on_cloned m (mkCloner g (Some cg) n) = (r, mkCloner g (Some cg') n).
Proof. intros H. unfold on_cloned. simpl. by rewrite H. Qed.

(** The initial graph is fixed during the traversal, and is a graph object. *)
Section traversal.
Context (g : EntityGraph) (Hwf : wf g).

(** The child was visited before: one more link between two clones. *)
Lemma inv_link_visited cg v cur c rs q pc t sp :
  clone_inv g cg v (pending (entity_id cur) (c :: rs) q) →
  entities g !! entity_id cur = Some cur → c ∈ children cur →
  v !! entity_id cur = Some pc → v !! c = Some t →
  clone_inv g (mkGraph (start cg) (alter (add_child t) pc (entities cg)) sp)
    v (pending (entity_id cur) rs q).
Proof.
  intros [Hinj Hent Hsurj Hfresh Hreach Hsound Hcompl Hsize] Hcur Hc Hpc Ht.
  assert (is_Some (entities cg !! pc)) as Hpc'.
  { destruct (Hent _ _ Hpc) as (? & ? & ? & ? & _). eauto. }
  split; simpl.
  - done.
  - intros u u' Hu. destruct (Hent _ _ Hu) as (e & e' & He & He' & Hi & Hn & Hd).
    destruct (alter_add_child_lookup (entities cg) pc t u' e' He')
      as (e'' & He'' & Hi' & Hn' & Hd').
    exists e, e''. repeat split; [done|done|congruence..].
  - intros u' Hu'. apply Hsurj. by rewrite lookup_alter_is_Some in Hu'.
  - intros u' Hu'. apply Hfresh. by rewrite lookup_alter_is_Some in Hu'.
  - done.
  - intros a b Hab. apply edge_add_link in Hab; [|done].
    destruct Hab as [Hab|[-> ->]]; [by apply Hsound|].
    exists (entity_id cur), c. repeat split; [done..|]. by exists cur.
  - intros u u' w Hu Huw Htodo.
    destruct (decide (u = entity_id cur ∧ w = c)) as [[-> ->]|Hne].
    + exists t. split; [done|]. assert (u' = pc) as -> by congruence.
      apply edge_add_link; [done|]. by right.
    + destruct (Hcompl u u' w Hu Huw) as (w' & Hw' & Hedge).
      { intros [[-> Hin]|Hin].
        - apply elem_of_cons in Hin as [->|Hin]; [by apply Hne|].
          apply Htodo. by left.
        - apply Htodo. by right. }
      exists w'. split; [done|]. apply edge_add_link; [done|]. by left.
  - by rewrite size_alter.
Qed.

(** The child is new: a fresh clone, linked from the clone of its parent,
    recorded in [visited] and queued. *)
Lemma inv_clone_child cg v cur c rs q pc child n' sp' :
  clone_inv g cg v (pending (entity_id cur) (c :: rs) q) →
  entities g !! entity_id cur = Some cur → c ∈ children cur →
  entities g !! c = Some child →
  v !! entity_id cur = Some pc → v !! c = None →
  entities g !! n' = None → entities cg !! n' = None →
  clone_inv g
    (mkGraph (start cg)
       (alter (add_child n') pc
          (<[n' := Entity_init n' (name child) (description child)]>
             (entities cg))) sp')
    (<[c := n']> v) (pending (entity_id cur) rs (q ++ [child])).
Proof.
  intros [Hinj Hent Hsurj Hfresh Hreach Hsound Hcompl Hsize]
    Hcur Hc Hchild Hpc Hvc Hgn Hcgn.
  assert (∀ u, v !! u ≠ Some n') as Hnew.
  { intros u Hu. destruct (Hent _ _ Hu) as (? & ? & ? & ? & _). congruence. }
  assert (is_Some (entities cg !! pc)) as Hpc'.
  { destruct (Hent _ _ Hpc) as (? & ? & ? & ? & _). eauto. }
  assert (pc ≠ n') as Hpcn by (intros ->; by apply (Hnew (entity_id cur))).
  assert (entity_id child = c) as Hchild_id by (by apply (wf_id g Hwf)).
  set (cg1 := mkGraph (start cg)
                (<[n' := Entity_init n' (name child) (description child)]>
                   (entities cg)) (start_parents cg)).
  assert (is_Some (entities cg1 !! pc)) as Hpc1.
  { simpl. rewrite lookup_insert_is_Some. by right. }
  assert (∀ a b,
    edge (mkGraph (start cg)
       (alter (add_child n') pc
          (<[n' := Entity_init n' (name child) (description child)]>
             (entities cg))) sp') a b
    ↔ edge cg a b ∨ (a = pc ∧ b = n')) as Hedges.
  { intros a b.
    pose proof (edge_add_link cg1 pc n' sp' a b Hpc1) as E1.
    pose proof (edge_add_entity cg n' (name child) (description child)
                  (start_parents cg) a b Hcgn) as E2.
    fold cg1 in E2. simpl in E1. by rewrite E1, E2. }
  split.
  - intros u1 u2 u' H1 H2.
    apply lookup_insert_Some in H1 as [[-> <-]|[Hne1 H1]];
      apply lookup_insert_Some in H2 as [[-> E]|[Hne2 H2]];
      try done.
    + by destruct (Hnew u2).
    + subst. by destruct (Hnew u1).
    + eauto.
  - intros u u' Hu. simpl.
    apply lookup_insert_Some in Hu as [[-> <-]|[Hne Hu]].
    + exists child, (Entity_init n' (name child) (description child)).
      split; [done|]. split; [|done].
      rewrite lookup_alter_ne by done. by rewrite lookup_insert_eq.
    + destruct (Hent _ _ Hu) as (e & e' & He & He' & Hi & Hn & Hd).
      assert (u' ≠ n') as Hne' by (intros ->; by destruct (Hnew u)).
      destruct (alter_add_child_lookup
                  (<[n' := Entity_init n' (name child) (description child)]>
                     (entities cg)) pc n' u' e')
        as (e'' & He'' & Hi' & Hn' & Hd').
      { by rewrite lookup_insert_ne. }
      exists e, e''. repeat split; [done|done|congruence..].
  - intros u'. simpl. rewrite lookup_alter_is_Some, lookup_insert_is_Some.
    intros [<-|[Hne Hu']].
    + exists c. by rewrite lookup_insert_eq.
    + destruct (Hsurj _ Hu') as [u Hu]. exists u.
      rewrite lookup_insert_ne; [done|]. intros ->. congruence.
  - intros u'. simpl. rewrite lookup_alter_is_Some, lookup_insert_is_Some.
    intros [<-|[Hne Hu']]; [done|]. by apply Hfresh.
  - intros u. rewrite lookup_insert_is_Some. intros [<-|[Hne Hu]].
    + eapply rtc_r; [apply Hreach; eauto|]. by exists cur.
    + by apply Hreach.
  - intros a b Hab. apply Hedges in Hab as [Hab|[-> ->]].
    + destruct (Hsound _ _ Hab) as (u & w & Hu & Hw & Huw).
      exists u, w. split; [|split; [|done]].
      * rewrite lookup_insert_ne; [done|]. intros ->. congruence.
      * rewrite lookup_insert_ne; [done|]. intros ->. congruence.
    + exists (entity_id cur), c. split; [|split].
      * rewrite lookup_insert_ne; [done|]. intros ->. congruence.
      * by rewrite lookup_insert_eq.
      * by exists cur.
  - intros u u' w Hu Huw Htodo.
    assert (u ≠ c) as Huc.
    { intros ->. apply Htodo. right. rewrite fmap_app.
      apply elem_of_app. right. simpl. rewrite Hchild_id.
      apply list_elem_of_singleton. done. }
    rewrite lookup_insert_ne in Hu by done.
    destruct (decide (u = entity_id cur ∧ w = c)) as [[-> ->]|Hne].
    + exists n'. split; [by rewrite lookup_insert_eq|].
      assert (u' = pc) as -> by congruence.
      apply Hedges. by right.
    + destruct (Hcompl u u' w Hu Huw) as (w' & Hw' & Hedge).
      { intros [[-> Hin]|Hin].
        - apply elem_of_cons in Hin as [->|Hin]; [by apply Hne|].
          apply Htodo. by left.
        - apply Htodo. right. rewrite fmap_app. apply elem_of_app. by left. }
      exists w'. split.
      * rewrite lookup_insert_ne; [done|]. intros ->. congruence.
      * apply Hedges. by left.
  - simpl. rewrite size_alter, !map_size_insert_None by done. by rewrite Hsize.
Qed.

(** One pass of the [for] body succeeds and re-establishes the invariant;
    [visited] and the queue grow together. *)
Lemma visit_child_spec cg n v q cur c rs pc :
  clone_inv g cg v (pending (entity_id cur) (c :: rs) q) →
  queue_ok g v q →
  entities g !! entity_id cur = Some cur → c ∈ children cur →
  v !! entity_id cur = Some pc →
  ∃ cg' n' v' q',
    visit_child cur c (mkLocals v q) (mkCloner g (Some cg) n)
    = (Ok (mkLocals v' q'), mkCloner g (Some cg') n')
    ∧ clone_inv g cg' v' (pending (entity_id cur) rs q')
    ∧ queue_ok g v' q'
    ∧ v ⊆ v'
    ∧ start cg' = start cg
    ∧ (size v' + length q = size v + length q')%nat.
Proof.
  intros Hinv Hq Hcur Hc Hpc.
  destruct (wf_children g Hwf _ _ _ Hcur Hc) as [child Hchild].
  assert (is_Some (entities cg !! pc)) as Hpc'.
  { destruct (inv_entity _ _ _ _ Hinv _ _ Hpc) as (? & ? & ? & ? & _). eauto. }
  unfold visit_child. unfold_M. simpl. rewrite Hchild.
  destruct (v !! c) as [t|] eqn:Hvc.
  - assert (contains c v = true) as -> by (apply contains_true; eauto).
    simpl. unfold subscript. rewrite Hpc, Hvc. unfold_M.
    assert (is_Some (entities cg !! t)) as Ht'.
    { destruct (inv_entity _ _ _ _ Hinv _ _ Hvc) as (? & ? & ? & ? & _). eauto. }
    rewrite (on_cloned_run _ _ _ _ _ _ (add_link_present cg pc t Hpc' Ht')).
    eexists _, n, v, q. split; [reflexivity|].
    split; [by eapply inv_link_visited|].
    split; [done|]. split; [done|]. split; [done|]. lia.
  - assert (contains c v = false) as -> by (by apply contains_false).
    simpl.
    destruct (generate_id_spec g (Some cg) n) as (n' & Hlt & Hgen & Hgn & Hcgn).
    specialize (Hcgn cg eq_refl).
    rewrite Hgen.
    rewrite (on_cloned_run _ _ _ _ _ _
               (add_entity_new cg n' (name child) (description child) Hcgn)).
    unfold subscript. rewrite Hpc. unfold_M.
    set (cg1 := mkGraph (start cg)
                  (<[n' := Entity_init n' (name child) (description child)]>
                     (entities cg)) (start_parents cg)).
    assert (is_Some (entities cg1 !! pc)) as Hpc1.
    { simpl. rewrite lookup_insert_is_Some. destruct (decide (n' = pc)); auto. }
    assert (is_Some (entities cg1 !! n')) as Hn1.
    { simpl. rewrite lookup_insert_eq. eauto. }
    rewrite (on_cloned_run _ _ _ _ _ _ (add_link_present cg1 pc n' Hpc1 Hn1)).
    subst cg1. simpl.
    eexists _, n', (<[c := n']> v), (q ++ [child]). split; [reflexivity|].
    split; [by eapply inv_clone_child|].
    split; [|split; [|split; [done|]]].
    + intros e He. apply elem_of_app in He as [He|He].
      * destruct (Hq e He) as [H1 H2]. split; [done|].
        rewrite lookup_insert_is_Some. destruct (decide (c = entity_id e)); auto.
      * apply list_elem_of_singleton in He as ->.
        rewrite (wf_id g Hwf _ _ Hchild). split; [done|].
        rewrite lookup_insert_eq. eauto.
    + by apply insert_subseteq.
    + rewrite map_size_insert_None by done. rewrite length_app. simpl. lia.
Qed.

Lemma visit_children_spec cur pc :
  entities g !! entity_id cur = Some cur →
  ∀ rs cg n v q,
  clone_inv g cg v (pending (entity_id cur) rs q) →
  queue_ok g v q →
  (∀ c, c ∈ rs → c ∈ children cur) →
  v !! entity_id cur = Some pc →
  ∃ cg' n' v' q',
    visit_children cur rs (mkLocals v q) (mkCloner g (Some cg) n)
    = (Ok (mkLocals v' q'), mkCloner g (Some cg') n')
    ∧ clone_inv g cg' v' (pending (entity_id cur) [] q')
    ∧ queue_ok g v' q'
    ∧ v ⊆ v'
    ∧ start cg' = start cg
    ∧ (size v' + length q = size v + length q')%nat.
Proof.
  intros Hcur rs.
  induction rs as [|c rs IH]; intros cg n v q Hinv Hq Hrs Hpc.
  - exists cg, n, v, q. simpl. unfold_M. split; [done|].
    split; [done|]. split; [done|]. split; [done|]. split; [done|]. lia.
  - destruct (visit_child_spec cg n v q cur c rs pc)
      as (cg1 & n1 & v1 & q1 & Hrun & Hinv1 & Hq1 & Hsub1 & Hst1 & Hsz1);
      try done.
    { apply Hrs. by left. }
    destruct (IH cg1 n1 v1 q1)
      as (cg2 & n2 & v2 & q2 & Hrun2 & Hinv2 & Hq2 & Hsub2 & Hst2 & Hsz2);
      try done.
    { intros c' Hc'. apply Hrs. by right. }
    { by eapply lookup_weaken. }
    exists cg2, n2, v2, q2. split.
    { simpl. unfold_M. rewrite Hrun. done. }
    split; [done|]. split; [done|]. split; [by etrans|]. split; [congruence|]. lia.
Qed.


Lemma clone_inv_weaken cg v (todo todo' : Z → Z → Prop) :
  clone_inv g cg v todo →
  (∀ u w, edge g u w → todo u w → todo' u w) →
  clone_inv g cg v todo'.
Proof.
  intros [Hinj Hent Hsurj Hfresh Hreach Hsound Hcompl Hsize] Hweak.
  split; try done.
  intros u u' w Hu Huw Htodo. apply (Hcompl u u' w Hu Huw).
  intros H. by apply Htodo, Hweak.
Qed.

Lemma clone_inv_visited_size cg v todo :
  clone_inv g cg v todo → (size v ≤ size (entities g))%nat.
Proof.
  intros Hinv. rewrite <- !(size_dom (D := gset Z)).
  apply subseteq_size. intros u Hu. apply elem_of_dom in Hu as [u' Hu].
  destruct (inv_entity _ _ _ _ Hinv _ _ Hu) as (e & _ & He & _).
  apply elem_of_dom. eauto.
Qed.

(** The [while] loop: it never raises, it ends with an empty queue, and it
    dequeues exactly as many entities as were queued at the start or are
    recorded in [visited] during the loop. *)
Lemma traverse_spec :
  ∀ (k : nat) cg n v q,
  clone_inv g cg v (pending 0 [] q) →
  queue_ok g v q →
  (length q + size (entities g) ≤ k + size v)%nat →
  ∃ cg' n' v',
    clone_inv g cg' v' (pending 0 [] [])
    ∧ v ⊆ v'
    ∧ start cg' = start cg
    ∧ ∀ fuel : nat,
        ((length q + size v' ≤ fuel + size v)%nat →
         traverse fuel (mkLocals v q) (mkCloner g (Some cg) n)
         = (Ok (mkLocals v' []), mkCloner g (Some cg') n'))
        ∧ ((fuel + size v < length q + size v')%nat →
           fst (traverse fuel (mkLocals v q) (mkCloner g (Some cg) n))
           = OutOfFuel).
Proof.
  intros k. induction k as [|k IH]; intros cg n v q Hinv Hq Hk.
  - pose proof (clone_inv_visited_size _ _ _ Hinv) as Hsz.
    destruct q as [|cur rest]; [|simpl in Hk; lia].
    exists cg, n, v. split; [done|]. split; [done|]. split; [done|].
    intros fuel. split; [|simpl; lia]. intros _. by destruct fuel.
  - destruct q as [|cur rest].
    { exists cg, n, v. split; [done|]. split; [done|]. split; [done|].
      intros fuel. split; [|simpl; lia]. intros _. by destruct fuel. }
    destruct (Hq cur) as [Hcur [pc Hpc]]; [by left|].
    destruct (visit_children_spec cur pc Hcur
                (elements (children cur)) cg n v rest)
      as (cg1 & n1 & v1 & q1 & Hrun & Hinv1 & Hq1 & Hsub1 & Hst1 & Hsz1).
    { eapply clone_inv_weaken; [exact Hinv|].
      intros u w (e & He & Hw) [[_ Hin]|Hin].
      - by apply elem_of_nil in Hin.
      - simpl in Hin. apply elem_of_cons in Hin as [->|Hin].
        + left. split; [done|]. apply elem_of_elements. congruence.
        + by right. }
    { intros e He. apply Hq. by right. }
    { intros c Hc. by apply elem_of_elements. }
    { done. }
    destruct (IH cg1 n1 v1 q1)
      as (cg' & n' & v' & Hinv' & Hsub' & Hst' & Hfuel).
    { eapply clone_inv_weaken; [exact Hinv1|].
      intros u w _ [[_ Hin]|Hin]; [by apply elem_of_nil in Hin|by right]. }
    { done. }
    { simpl in Hk. lia. }
    exists cg', n', v'. split; [done|]. split; [by etrans|].
    split; [congruence|].
    pose proof (map_subseteq_size _ _ Hsub1) as Hs1.
    pose proof (map_subseteq_size _ _ Hsub') as Hs'.
    intros fuel. destruct fuel as [|fuel]; simpl.
    + split; [lia|done].
    + unfold_M. rewrite Hrun. destruct (Hfuel fuel) as [Hok Hout].
      split; intros Hf; [apply Hok|apply Hout]; lia.
Qed.

Lemma clone_inv_initial s_ent n1 :
  entities g !! start g = Some s_ent → entities g !! n1 = None →
  clone_inv g
    (mkGraph n1 (<[n1 := Entity_init n1 (name s_ent) (description s_ent)]> ∅) ∅)
    {[entity_id s_ent := n1]} (pending 0 [] [s_ent]).
Proof.
  intros Hs Hn1.
  assert (entity_id s_ent = start g) as Hid by (by apply (wf_id g Hwf)).
  rewrite Hid. split; simpl.
  - intros u1 u2 u' H1 H2.
    apply lookup_singleton_Some in H1 as [<- _].
    by apply lookup_singleton_Some in H2 as [<- _].
  - intros u u' Hu. apply lookup_singleton_Some in Hu as [<- <-].
    exists s_ent, (Entity_init n1 (name s_ent) (description s_ent)).
    split; [done|]. by rewrite lookup_insert_eq.
  - intros u' Hu'. apply lookup_insert_is_Some in Hu' as [<-|[_ Hu']].
    + exists (start g). by rewrite lookup_singleton_eq.
    + rewrite lookup_empty in Hu'. by destruct Hu'.
  - intros u' Hu'. apply lookup_insert_is_Some in Hu' as [<-|[_ Hu']]; [done|].
    rewrite lookup_empty in Hu'. by destruct Hu'.
  - intros u [u' Hu]. apply lookup_singleton_Some in Hu as [<- _].
    apply rtc_refl.
  - intros a b (e & He & Hb). simpl in He.
    apply lookup_insert_Some in He as [[_ <-]|[_ He]].
    + simpl in Hb. by apply elem_of_empty in Hb.
    + by rewrite lookup_empty in He.
  - intros u u' w Hu _ Htodo. apply lookup_singleton_Some in Hu as [<- _].
    destruct Htodo. right. simpl. rewrite Hid. by left.
  - rewrite map_size_insert_None by apply lookup_empty.
    by rewrite map_size_empty, map_size_singleton.
Qed.

Lemma clone_inv_closed cg v :
  clone_inv g cg v (pending 0 [] []) → is_Some (v !! start g) →
  ∀ u, reachable g u ↔ is_Some (v !! u).
Proof.
  intros Hinv Hs u. split; [|apply (inv_reach _ _ _ _ Hinv)].
  revert u. unfold reachable. apply rtc_ind_r; [done|].
  intros u w _ Huw [u' Hu'].
  destruct (inv_complete _ _ _ _ Hinv u u' w Hu' Huw) as (w' & Hw' & _); [|eauto].
  intros [[_ Hin]|Hin]; by apply elem_of_nil in Hin.
Qed.

(** The whole traversal, from a new cloner on a graph whose start is one of
    its entities. *)
Lemma clone_traversal_spec :
  is_Some (entities g !! start g) →
  ∃ cg n v,
    clone_inv g cg v (pending 0 [] [])
    ∧ v !! start g = Some (start cg)
    ∧ ∀ fuel : nat,
        ((size v ≤ fuel)%nat →
         clone_traversal fuel (EntityCloner_init g)
         = (Ok (mkLocals v []), mkCloner g (Some cg) n))
        ∧ ((fuel < size v)%nat →
           fst (clone_traversal fuel (EntityCloner_init g)) = OutOfFuel).
Proof.
  intros [s_ent Hs].
  destruct (generate_id_spec g None 0) as (n1 & Hpos & Hgen & Hgn & _).
  assert (entity_id s_ent = start g) as Hid by (by apply (wf_id g Hwf)).
  set (cg0 := mkGraph n1
                (<[n1 := Entity_init n1 (name s_ent) (description s_ent)]> ∅) ∅).
  destruct (traverse_spec (size (entities g)) cg0 n1
              {[entity_id s_ent := n1]} [s_ent])
    as (cg' & n' & v' & Hinv' & Hsub' & Hst' & Hfuel).
  { by apply clone_inv_initial. }
  { intros e He. apply list_elem_of_singleton in He as ->.
    rewrite Hid. split; [done|]. rewrite lookup_singleton_eq. eauto. }
  { rewrite map_size_singleton. simpl. lia. }
  exists cg', n', v'. split; [done|]. split.
  { eapply lookup_weaken; [|exact Hsub']. rewrite Hst'. simpl.
    rewrite Hid. apply lookup_singleton_eq. }
  intros fuel.
  assert (clone_traversal fuel (EntityCloner_init g)
          = traverse fuel (mkLocals {[entity_id s_ent := n1]} [s_ent])
              (mkCloner g (Some cg0) n1)) as ->.
  { unfold clone_traversal, EntityCloner_init. unfold_M.
    rewrite Hgen. simpl. unfold get_start, get_entity. rewrite Hs.
    unfold set_cloned_graph. simpl.
    rewrite (on_cloned_run _ _ _ _ _ _
      (add_entity_new (EntityGraph_init n1) n1 (name s_ent)
         (description s_ent) (lookup_empty _))).
    done. }
  destruct (Hfuel fuel) as [Hok Hout]. rewrite map_size_singleton in Hok, Hout.
  simpl in Hok, Hout. split; intros Hf; [apply Hok|apply Hout]; lia.
Qed.

End traversal.

Lemma clone_subgraph_of_traversal fuel c loc g cg n :
  clone_traversal fuel c = (Ok loc, mkCloner g (Some cg) n) →
  clone_subgraph fuel c = (Ok cg, mkCloner g (Some cg) n).
Proof. intros H. unfold clone_subgraph. unfold_M. by rewrite H. Qed.

Lemma clone_subgraph_out_of_fuel fuel c :
  fst (clone_traversal fuel c) = OutOfFuel →
  fst (clone_subgraph fuel c) = OutOfFuel.
Proof.
  intros H. unfold clone_subgraph. unfold_M.
  destruct (clone_traversal fuel c) as [[| |] c']; by simpl in *.
Qed.

Lemma graph_of_has_start s calls :
  has_entity (graph_of s calls) s = true →
  is_Some (entities (graph_of s calls) !! start (graph_of s calls)).
Proof. intros H. rewrite graph_of_start. by apply contains_true. Qed.


(** ** The initial graph is only read *)

Lemma keeps_ret {A} (a : A) : keeps_initial (M_ret a).
Proof. by intros c. Qed.

Lemma keeps_raise {A} (e : exn) : keeps_initial (raise (A := A) e).
Proof. by intros c. Qed.

Lemma keeps_bind {A B} (m : M EntityCloner A) (k : A → M EntityCloner B) :
  keeps_initial m → (∀ a, keeps_initial (k a)) → keeps_initial (m ≫= k).
Proof.
  intros Hm Hk c. unfold_M. specialize (Hm c).
  destruct (m c) as [[a|e|] c']; simpl in *; [|done..].
  by rewrite Hk.
Qed.

Lemma keeps_generate_id : keeps_initial generate_id.
Proof.
  intros [g cgo n]. destruct (generate_id_spec g cgo n) as (n' & _ & -> & _).
  done.
Qed.

Lemma keeps_on_cloned {A} (m : M EntityGraph A) : keeps_initial (on_cloned m).
Proof.
  intros [g [cg|] n]; unfold on_cloned; simpl; [|done].
  by destruct (m cg).
Qed.

Lemma keeps_subscript (d : gmap Z Z) (k : Z) :
  keeps_initial (subscript d k).
Proof. intros c. unfold subscript. by destruct (d !! k). Qed.

Lemma keeps_visit_child cur r loc : keeps_initial (visit_child cur r loc).
Proof.
  intros c. unfold visit_child.
  change ((get ≫= ?k) c) with (k c c). cbv beta.
  destruct (entities (initial_graph c) !! r) as [child|]; [|done].
  destruct (negb (contains r (visited loc))).
  - revert c. apply keeps_bind; [apply keeps_generate_id|]. intros n.
    apply keeps_bind; [apply keeps_on_cloned|]. intros _.
    apply keeps_bind; [apply keeps_subscript|]. intros p.
    apply keeps_bind; [apply keeps_on_cloned|]. intros _.
    apply keeps_ret.
  - revert c. apply keeps_bind; [apply keeps_subscript|]. intros p.
    apply keeps_bind; [apply keeps_subscript|]. intros t.
    apply keeps_bind; [apply keeps_on_cloned|]. intros _.
    apply keeps_ret.
Qed.

Lemma keeps_visit_children cur refs :
  ∀ loc, keeps_initial (visit_children cur refs loc).
Proof.
  induction refs as [|r refs IH]; intros loc; simpl.
  - apply keeps_ret.
  - apply keeps_bind; [apply keeps_visit_child|done].
Qed.

Lemma keeps_traverse fuel : ∀ loc, keeps_initial (traverse fuel loc).
Proof.
  induction fuel as [|fuel IH]; intros loc; simpl.
  - destruct (queue loc); [apply keeps_ret|done].
  - destruct (queue loc) as [|cur rest]; [apply keeps_ret|].
    apply keeps_bind; [apply keeps_visit_children|done].
Qed.

Lemma keeps_clone_traversal fuel : keeps_initial (clone_traversal fuel).
Proof.
  intros c. unfold clone_traversal.
  change ((get ≫= ?k) c) with (k c c). cbv beta zeta.
  apply keeps_bind; [apply keeps_generate_id|]. intros n c'.
  change ((get ≫= ?k) c') with (k c' c'). cbv beta.
  change ((put ?s ≫= ?k) c') with (k tt s). cbv beta.
  destruct (get_start (initial_graph c)) as [cur|]; [|done].
  transitivity (initial_graph (set_cloned_graph (EntityGraph_init n) c'));
    [|done].
  apply keeps_bind; [apply keeps_on_cloned|]. intros _. apply keeps_traverse.
Qed.

Lemma visit_child_enqueue cur r loc c loc' c' :
  visit_child cur r loc c = (Ok loc', c') →
  visited loc ⊆ visited loc'
  ∧ ((is_Some (visited loc !! r)
      ∧ visited loc' = visited loc ∧ queue loc' = queue loc)
     ∨ (visited loc !! r = None
        ∧ ∃ child n, entities (initial_graph c) !! r = Some child
                     ∧ visited loc' = <[r := n]> (visited loc)
                     ∧ queue loc' = queue loc ++ [child])).
Proof.
  unfold visit_child. unfold_M. simpl.
  destruct (entities (initial_graph c) !! r) as [child|]; [|done].
  destruct (visited loc !! r) as [t|] eqn:Hr.
  - assert (contains r (visited loc) = true) as ->
      by (apply contains_true; eauto).
    simpl. intros H. repeat case_match; simplify_eq. split; [done|].
    left. eauto.
  - assert (contains r (visited loc) = false) as ->
      by (by apply contains_false).
    simpl. intros H. repeat case_match; simplify_eq. simpl. split.
    + by apply insert_subseteq.
    + right. split; [done|]. eauto.
Qed.

(** ** Sequences of [generate_id] calls *)

Lemma generate_ids_spec g between :
  ∀ cgo n,
  ∃ ids c',
    generate_ids between (mkCloner g cgo n) = (Ok ids, c')
    ∧ initial_graph c' = g
    ∧ Forall (λ id, n < id) ids
    ∧ StronglySorted Z.lt ids
    ∧ Forall2 (free_at g) ids between.
Proof.
  induction between as [|cgo' between IH]; intros cgo n.
  - exists [], (mkCloner g cgo n). simpl. unfold_M.
    split; [done|]. split; [done|]. split; [constructor|].
    split; constructor.
  - destruct (generate_id_spec g cgo' n) as (n1 & Hlt & Hgen & Hg & Hcg).
    destruct (IH cgo' n1) as (ids & c' & Hrun & Hinit & Hgt & Hsorted & Hfree).
    exists (n1 :: ids), c'. split.
    { simpl. unfold_M. simpl. rewrite Hgen, Hrun. done. }
    split; [done|]. split.
    { constructor; [done|]. eapply Forall_impl; [exact Hgt|].
      intros id Hid. simpl in Hid. lia. }
    split; [by constructor|].
    constructor; [|done]. split.
    + by apply contains_false.
    + destruct cgo' as [cg|]; [|done]. apply contains_false. by apply Hcg.
Qed.

(** ** [build_from_data] *)

Lemma perform_dom (c : call) (g : EntityGraph) (k : Z) :
  is_Some (entities g !! k) → is_Some (entities (snd (perform c g)) !! k).
Proof.
  intros Hk. destruct c as [k' n d|a b]; simpl.
  - destruct (entities g !! k') eqn:E.
    + by rewrite add_entity_present by eauto.
    + rewrite add_entity_new by done. simpl.
      rewrite lookup_insert_is_Some. destruct (decide (k' = k)); auto.
  - destruct (entities g !! a) eqn:Ea.
    + destruct (entities g !! b) eqn:Eb.
      * rewrite add_link_present by eauto. simpl.
        by rewrite lookup_alter_is_Some.
      * by rewrite add_link_absent_to by eauto.
    + by rewrite add_link_absent_from.
Qed.

(** The first loop: every record is added, or the first id met twice
    raises. *)
Lemma add_entities_run (ents : list EntityRecord) :
  ∀ g,
  let ids := r_entity_id <$> ents in
  let body := λ entity, add_entity (r_entity_id entity) (r_name entity)
                          (r_description entity) in
  (NoDup ids ∧ (∀ k, k ∈ ids → entities g !! k = None)
   ∧ for_each ents body g = (Ok tt, after_calls (entity_call <$> ents) g)
   ∧ (∀ k, is_Some (entities (after_calls (entity_call <$> ents) g) !! k)
           ↔ is_Some (entities g !! k) ∨ k ∈ ids))
  ∨ (¬ (NoDup ids ∧ ∀ k, k ∈ ids → entities g !! k = None)
     ∧ ∃ k g', for_each ents body g = (Raise (ValueError_already_present k), g')).
Proof.
  induction ents as [|r ents IH]; intros g ids body.
  - left. split; [constructor|]. split.
    { intros k Hk. by apply elem_of_nil in Hk. }
    split; [done|]. intros k. simpl. split; [auto|].
    intros [?|Hk]; [done|]. by apply elem_of_nil in Hk.
  - subst ids body. rewrite fmap_cons.
    destruct (entities g !! r_entity_id r) as [e|] eqn:E.
    + right. split.
      * intros [_ Hfresh]. rewrite Hfresh in E; [done|]. by left.
      * simpl. unfold_M. rewrite add_entity_present by eauto. eauto.
    + set (g1 := mkGraph (start g)
                   (<[r_entity_id r := Entity_init (r_entity_id r) (r_name r)
                                          (r_description r)]> (entities g))
                   (start_parents g)).
      assert (after_calls (entity_call <$> r :: ents) g
              = after_calls (entity_call <$> ents) g1) as Hcalls.
      { rewrite fmap_cons, after_calls_cons. simpl.
        by rewrite add_entity_new by done. }
      assert (∀ r0 : outcome unit * EntityGraph,
        for_each ents
          (λ entity, add_entity (r_entity_id entity) (r_name entity)
                       (r_description entity)) g1 = r0 →
        for_each (r :: ents)
          (λ entity, add_entity (r_entity_id entity) (r_name entity)
                       (r_description entity)) g = r0) as Hstep.
      { intros r0 <-. simpl. unfold_M. by rewrite add_entity_new by done. }
      destruct (IH g1) as [(Hnd & Hfresh & Hrun & Hdom)|(Hbad & k & g' & Hrun)].
      * left. split.
        { constructor; [|done]. intros Hin.
          specialize (Hfresh _ Hin). simpl in Hfresh.
          by rewrite lookup_insert_eq in Hfresh. }
        split.
        { intros k Hk. apply elem_of_cons in Hk as [->|Hk]; [done|].
          specialize (Hfresh _ Hk). simpl in Hfresh.
          by apply lookup_insert_None in Hfresh as [? _]. }
        split.
        { rewrite Hcalls. by apply Hstep. }
        intros k. rewrite Hcalls, Hdom. simpl.
        rewrite lookup_insert_is_Some, elem_of_cons.
        destruct (decide (r_entity_id r = k)); intuition congruence.
      * right. split.
        { intros [Hnd Hfresh]. apply Hbad. apply NoDup_cons in Hnd as [Hr Hnd].
          split; [done|]. intros k' Hk'. simpl.
          apply lookup_insert_None. split.
          - apply Hfresh. by right.
          - intros <-. done. }
        exists k, g'. by apply Hstep.
Qed.

(** The second loop: every link is added, or the first unknown endpoint
    raises. *)
Lemma add_links_run (links : list LinkRecord) :
  ∀ g,
  let known := λ l, is_Some (entities g !! l_from l)
                    ∧ is_Some (entities g !! l_to l) in
  let body := λ link, add_link (l_from link) (l_to link) in
  (Forall known links
   ∧ for_each links body g = (Ok tt, after_calls (link_call <$> links) g))
  ∨ (¬ Forall known links
     ∧ ∃ k g', entities g !! k = None
               ∧ for_each links body g = (Raise (LookupError_no_entity k), g')).
Proof.
  induction links as [|l links IH]; intros g known body.
  - left. split; [constructor|done].
  - subst known body.
    destruct (entities g !! l_from l) as [ea|] eqn:Ea.
    + destruct (entities g !! l_to l) as [eb|] eqn:Eb.
      * set (g1 := mkGraph (start g)
                     (alter (add_child (l_to l)) (l_from l) (entities g))
                     (if bool_decide (l_to l = start g)
                      then {[l_from l]} ∪ start_parents g
                      else start_parents g)).
        assert (after_calls (link_call <$> l :: links) g
                = after_calls (link_call <$> links) g1) as Hcalls.
        { rewrite fmap_cons, after_calls_cons. simpl.
          by rewrite add_link_present by eauto. }
        assert (∀ r0 : outcome unit * EntityGraph,
          for_each links (λ link, add_link (l_from link) (l_to link)) g1 = r0 →
          for_each (l :: links) (λ link, add_link (l_from link) (l_to link)) g
          = r0) as Hstep.
        { intros r0 <-. simpl. unfold_M. by rewrite add_link_present by eauto. }
        assert (∀ k, is_Some (entities g1 !! k) ↔ is_Some (entities g !! k))
          as Hdom.
        { intros k. subst g1. simpl. by rewrite lookup_alter_is_Some. }
        assert (∀ k, entities g1 !! k = None ↔ entities g !! k = None)
          as Hdom'.
        { intros k. rewrite !eq_None_not_Some, Hdom. done. }
        assert (Forall (λ l0, is_Some (entities g1 !! l_from l0)
                              ∧ is_Some (entities g1 !! l_to l0)) links
                ↔ Forall (λ l0, is_Some (entities g !! l_from l0)
                              ∧ is_Some (entities g !! l_to l0)) links) as Hall.
        { rewrite !Forall_forall. split; intros H x Hx; specialize (H x Hx);
            by rewrite !Hdom in *. }
        destruct (IH g1) as [(Hok & Hrun)|(Hbad & k & g' & Hk & Hrun)].
        -- left. split.
           { constructor; [eauto|]. by apply Hall. }
           rewrite Hcalls. by apply Hstep.
        -- right. split.
           { intros Hf. apply Forall_cons in Hf as [_ Hf].
             by apply Hbad, Hall. }
           exists k, g'. split; [by apply Hdom'|]. by apply Hstep.
      * right. split.
        { intros Hf. apply Forall_cons in Hf as [[_ [? ?]] _]. congruence. }
        simpl. unfold_M. rewrite add_link_absent_to by eauto. eauto.
    + right. split.
      { intros Hf. apply Forall_cons in Hf as [[[? ?] _] _]. congruence. }
      simpl. unfold_M. rewrite add_link_absent_from by done. eauto.
Qed.

(** The four ways [build_from_data] can end, in the order the code checks
    them. *)
Lemma build_from_data_cases (start : Z) (data : Data) :
  let ids := ids_of data in
  let known := λ l, l_from l ∈ ids ∧ l_to l ∈ ids in
  ((¬ NoDup ids)
   ∧ ∃ k, build_from_data start data = Raise (ValueError_already_present k))
  ∨ (NoDup ids ∧ (start ∉ ids)
     ∧ build_from_data start data = Raise (ValueError_not_in_provided start))
  ∨ (NoDup ids ∧ start ∈ ids ∧ ¬ Forall known (d_links data)
     ∧ ∃ k, (k ∉ ids)
            ∧ build_from_data start data = Raise (LookupError_no_entity k))
  ∨ (NoDup ids ∧ start ∈ ids ∧ Forall known (d_links data)
     ∧ build_from_data start data = Ok (graph_of start (calls_of data))).
Proof.
  intros ids known. unfold build_from_data, build_body. unfold_M.
  destruct (add_entities_run (d_entities data) (EntityGraph_init start))
    as [(Hnd & _ & Hrun & Hdom)|(Hbad & k & g' & Hrun)]; rewrite Hrun.
  2:{ left. split; [|eauto]. intros Hnd. apply Hbad. split; [done|].
      intros k' _. apply lookup_empty. }
  right.
  set (g1 := after_calls (entity_call <$> d_entities data)
               (EntityGraph_init start)) in *.
  assert (∀ k, is_Some (entities g1 !! k) ↔ k ∈ ids) as Hdom1.
  { intros k. rewrite Hdom. simpl. rewrite lookup_empty.
    split; [intros [[? ?]|?]; done|auto]. }
  destruct (decide (start ∈ ids)) as [Hin|Hnin].
  2:{ left. split; [done|]. split; [done|].
      assert (contains start (entities g1) = false) as ->; [|done].
      apply contains_false. apply eq_None_not_Some. by rewrite Hdom1. }
  right.
  assert (contains start (entities g1) = true) as ->
    by (by apply contains_true, Hdom1).
  simpl.
  assert (Forall known (d_links data)
          ↔ Forall (λ l, is_Some (entities g1 !! l_from l)
                         ∧ is_Some (entities g1 !! l_to l)) (d_links data))
    as Hknown.
  { rewrite !Forall_forall. unfold known.
    split; intros H x Hx; specialize (H x Hx); by rewrite !Hdom1 in *. }
  destruct (add_links_run (d_links data) g1)
    as [(Hok & Hrun2)|(Hbad & k & g' & Hk & Hrun2)]; rewrite Hrun2.
  - right. split; [done|]. split; [done|]. split; [by apply Hknown|].
    unfold graph_of, calls_of. by rewrite after_calls_app.
  - left. split; [done|]. split; [done|]. split.
    + intros Hf. by apply Hbad, Hknown.
    + exists k. split; [|done]. rewrite <- Hdom1.
      by apply eq_None_not_Some.
Qed.

(** ** Serialization and back *)

Lemma after_entity_calls_lookup (ents : list EntityRecord) :
  ∀ g k e,
  NoDup (r_entity_id <$> ents) →
  (∀ k', k' ∈ (r_entity_id <$> ents) → entities g !! k' = None) →
  entities (after_calls (entity_call <$> ents) g) !! k = Some e
  ↔ entities g !! k = Some e
    ∨ ∃ r, r ∈ ents ∧ r_entity_id r = k
           ∧ e = Entity_init k (r_name r) (r_description r).
Proof.
  induction ents as [|r ents IH]; intros g k e Hnd Hfresh.
  - simpl. split; [auto|]. intros [?|(r & Hr & _)]; [done|].
    by apply elem_of_nil in Hr.
  - rewrite fmap_cons in Hnd, Hfresh. apply NoDup_cons in Hnd as [Hr Hnd].
    assert (entities g !! r_entity_id r = None) as Hg by (apply Hfresh; by left).
    rewrite fmap_cons, after_calls_cons. simpl.
    rewrite add_entity_new by done. simpl.
    rewrite IH; [|done|].
    2:{ intros k' Hk'. simpl. apply lookup_insert_None. split.
        - apply Hfresh. by right.
        - intros <-. done. }
    simpl. rewrite lookup_insert_Some. split.
    + intros [[[<- <-]|[Hne Hk]]|(r' & Hr' & <- & ->)].
      * right. exists r. split; [by left|done].
      * by left.
      * right. exists r'. split; [by right|done].
    + intros [Hk|(r' & Hr' & <- & ->)].
      * left. right. split; [|done]. intros <-. congruence.
      * apply elem_of_cons in Hr' as [->|Hr'].
        -- left. by left.
        -- right. eauto.
Qed.

Lemma after_link_calls (links : list LinkRecord) :
  ∀ g,
  Forall (λ l, is_Some (entities g !! l_from l)
               ∧ is_Some (entities g !! l_to l)) links →
  let g' := after_calls (link_call <$> links) g in
  (∀ k e, entities g !! k = Some e →
     ∃ e', entities g' !! k = Some e' ∧ entity_id e' = entity_id e
           ∧ name e' = name e ∧ description e' = description e)
  ∧ (∀ k, entities g !! k = None → entities g' !! k = None)
  ∧ (∀ u w, edge g' u w
            ↔ edge g u w ∨ ∃ l, l ∈ links ∧ l_from l = u ∧ l_to l = w).
Proof.
  induction links as [|l links IH]; intros g Hknown g'.
  - subst g'. simpl. split; [eauto|]. split; [done|].
    intros u w. split; [auto|]. intros [?|(l & Hl & _)]; [done|].
    by apply elem_of_nil in Hl.
  - apply Forall_cons in Hknown as [[Hfrom Hto] Hknown].
    set (g1 := mkGraph (start g)
                 (alter (add_child (l_to l)) (l_from l) (entities g))
                 (if bool_decide (l_to l = start g)
                  then {[l_from l]} ∪ start_parents g
                  else start_parents g)).
    assert (g' = after_calls (link_call <$> links) g1) as ->.
    { subst g'. rewrite fmap_cons, after_calls_cons. simpl.
      by rewrite add_link_present by done. }
    destruct (IH g1) as (Hent & Hnone & Hedge).
    { rewrite Forall_forall in Hknown. apply Forall_forall. intros x Hx.
      simpl. rewrite !lookup_alter_is_Some. by apply Hknown. }
    split; [|split].
    + intros k e Hk.
      destruct (alter_add_child_lookup (entities g) (l_from l) (l_to l) k e Hk)
        as (e1 & He1 & Hi1 & Hn1 & Hd1).
      destruct (Hent k e1 He1) as (e' & He' & Hi' & Hn' & Hd').
      exists e'. split; [done|]. split; [congruence|]. split; congruence.
    + intros k Hk. apply Hnone. simpl. by apply lookup_alter_None.
    + intros u w. rewrite Hedge.
      assert (edge g1 u w
              ↔ edge g u w ∨ (u = l_from l ∧ w = l_to l)) as E
        by (by apply edge_add_link).
      rewrite E. split.
      * intros [[?|[-> ->]]|(l' & Hl' & H1 & H2)].
        -- by left.
        -- right. exists l. split; [by left|done].
        -- right. exists l'. split; [by right|done].
      * intros [?|(l' & Hl' & H1 & H2)]; [by left; left|].
        apply elem_of_cons in Hl' as [->|Hl'].
        -- left. right. done.
        -- right. eauto.
Qed.

Lemma elem_of_values (d : gmap Z Entity) (e : Entity) :
  e ∈ values d ↔ ∃ k, d !! k = Some e.
Proof.
  unfold values. rewrite list_elem_of_fmap. split.
  - intros ([k e'] & -> & Hin). apply elem_of_map_to_list in Hin. eauto.
  - intros [k Hk]. exists (k, e). split; [done|]. by apply elem_of_map_to_list.
Qed.

Lemma values_ids (g : EntityGraph) :
  wf g → entity_id <$> values (entities g) = (map_to_list (entities g)).*1.
Proof.
  intros Hwf. unfold values. rewrite <- list_fmap_compose.
  apply list_fmap_ext. intros i [k e] Hi. simpl.
  apply (wf_id g Hwf). apply elem_of_map_to_list.
  apply list_elem_of_lookup. eauto.
Qed.

Lemma to_dict_ids (g : EntityGraph) :
  wf g →
  NoDup (ids_of (EntityGraph_to_dict g))
  ∧ ∀ k, k ∈ ids_of (EntityGraph_to_dict g) ↔ is_Some (entities g !! k).
Proof.
  intros Hwf.
  assert (ids_of (EntityGraph_to_dict g) = (map_to_list (entities g)).*1) as ->.
  { unfold ids_of, EntityGraph_to_dict. simpl.
    rewrite <- list_fmap_compose. rewrite <- values_ids by done. done. }
  split; [apply NoDup_fst_map_to_list|].
  intros k. rewrite list_elem_of_fmap. split.
  - intros ([k' e] & -> & Hin). apply elem_of_map_to_list in Hin. eauto.
  - intros [e He]. exists (k, e). split; [done|]. by apply elem_of_map_to_list.
Qed.

Lemma to_dict_links (g : EntityGraph) (l : LinkRecord) :
  wf g →
  l ∈ d_links (EntityGraph_to_dict g) ↔ edge g (l_from l) (l_to l).
Proof.
  intros Hwf. unfold EntityGraph_to_dict. simpl.
  rewrite list_elem_of_bind. split.
  - intros (e & Hl & He). apply elem_of_values in He as [k Hk].
    unfold entity_links in Hl. apply list_elem_of_fmap in Hl as (c & -> & Hc).
    apply elem_of_elements in Hc. simpl.
    rewrite (wf_id g Hwf _ _ Hk). by exists e.
  - intros (e & He & Hc). exists e. split.
    + unfold entity_links. apply list_elem_of_fmap. exists (l_to l).
      split; [|by apply elem_of_elements].
      rewrite (wf_id g Hwf _ _ He). by destruct l.
    + apply elem_of_values. eauto.
Qed.

Lemma graph_eq (a b : EntityGraph) :
  start a = start b → entities a = entities b →
  start_parents a = start_parents b → a = b.
Proof. destruct a, b. simpl. by intros -> -> ->. Qed.

(** Rebuilding a graph from its own record gives the graph back, empty
    descriptions dropped. *)
Lemma build_from_to_dict (g : EntityGraph) :
  wf g → is_Some (entities g !! start g) →
  build_from_data (start g) (EntityGraph_to_dict g) = Ok (normalize g).
Proof.
  intros Hwf Hstart.
  destruct (to_dict_ids g Hwf) as [Hnd Hids].
  set (data := EntityGraph_to_dict g) in *.
  assert (Forall (λ l, l_from l ∈ ids_of data ∧ l_to l ∈ ids_of data)
            (d_links data)) as Hknown.
  { apply Forall_forall. intros l Hl. apply to_dict_links in Hl; [|done].
    destruct Hl as (e & He & Hc). rewrite !Hids. split; [eauto|].
    by apply (wf_children g Hwf _ _ _ He). }
  destruct (build_from_data_cases (start g) data)
    as [[Hbad _]|[(_ & Hbad & _)|[(_ & _ & Hbad & _)|(_ & _ & _ & ->)]]].
  { done. }
  { destruct Hbad. by apply Hids. }
  { done. }
  f_equal.
  pose proof (graph_of_wf (start g) (calls_of data)) as Hwf2.
  pose proof (graph_of_start (start g) (calls_of data)) as Hst2.
  set (g2 := graph_of (start g) (calls_of data)) in *.
  set (g1 := after_calls (entity_call <$> d_entities data)
               (EntityGraph_init (start g))).
  assert (g2 = after_calls (link_call <$> d_links data) g1) as Hg2.
  { unfold g2, graph_of, calls_of. by rewrite after_calls_app. }
  assert (∀ k e1, entities g1 !! k = Some e1
          ↔ ∃ e, entities g !! k = Some e
                 ∧ e1 = Entity_init k (name e)
                          (if truthy (description e) then description e
                           else None)) as Hg1.
  { intros k e1. unfold g1.
    rewrite (after_entity_calls_lookup (d_entities data)
               (EntityGraph_init (start g)) k e1 Hnd); [|intros; apply lookup_empty].
    simpl. rewrite lookup_empty. split.
    - intros [?|(r & Hr & <- & ->)]; [done|].
      apply list_elem_of_fmap in Hr as (e & -> & He).
      apply elem_of_values in He as [k He]. exists e.
      simpl. rewrite (wf_id g Hwf _ _ He). done.
    - intros (e & He & ->). right. exists (Entity_to_dict e).
      split; [|split].
      + apply list_elem_of_fmap. exists e. split; [done|].
        apply elem_of_values. eauto.
      + simpl. by apply (wf_id g Hwf).
      + done. }
  assert (∀ k, entities g !! k = None → entities g1 !! k = None) as Hg1n.
  { intros k Hk. destruct (entities g1 !! k) as [e1|] eqn:E; [|done].
    apply Hg1 in E as (e & He & _). congruence. }
  destruct (after_link_calls (d_links data) g1) as (Hent & Hnone & Hedge).
  { apply Forall_forall. intros l Hl.
    rewrite Forall_forall in Hknown. destruct (Hknown l Hl) as [Hf Ht].
    apply Hids in Hf as [ef Hf]. apply Hids in Ht as [et Ht].
    split; eexists; apply Hg1; eauto. }
  rewrite <- Hg2 in Hent, Hnone, Hedge.
  assert (∀ u w, edge g2 u w ↔ edge g u w) as Hedges.
  { intros u w. rewrite Hedge. split.
    - intros [(e1 & He1 & Hw)|(l & Hl & <- & <-)].
      + apply Hg1 in He1 as (e & _ & ->). simpl in Hw.
        by apply elem_of_empty in Hw.
      + by apply to_dict_links.
    - intros Huw. right. exists (mkLink u w). split; [|done].
      by apply to_dict_links. }
  apply graph_eq.
  - done.
  - apply map_eq. intros k. simpl. rewrite lookup_fmap.
    destruct (entities g !! k) as [e|] eqn:He; simpl.
    + destruct (Hent k (Entity_init k (name e)
                          (if truthy (description e) then description e
                           else None))) as (e' & He' & Hi & Hn & Hd).
      { apply Hg1. eauto. }
      rewrite He'. f_equal. simpl in Hi, Hn, Hd.
      assert (children e' = children e) as Hc.
      { apply set_eq. intros c. split.
        - intros Hc. assert (edge g2 k c) as Hkc by (by exists e').
          apply Hedges in Hkc as (e0 & He0 & Hc0). congruence.
        - intros Hc. assert (edge g k c) as Hkc by (by exists e).
          apply Hedges in Hkc as (e0 & He0 & Hc0). congruence. }
      unfold normalize_entity. rewrite (wf_id g Hwf _ _ He).
      destruct e'; simpl in *; congruence.
    + apply Hnone. by apply Hg1n.
  - apply set_eq. intros p. simpl.
    rewrite (wf_start_parents g2 Hwf2), (wf_start_parents g Hwf), Hst2.
    apply Hedges.
Qed.

(** ** [start_parents] and the bridging links *)

Lemma graph_of_snoc (s : Z) (calls : list call) (c : call) :
  graph_of s (calls ++ [c]) = snd (perform c (graph_of s calls)).
Proof. unfold graph_of. by rewrite after_calls_app. Qed.

Lemma perform_start_parents (c : call) (g : EntityGraph) (p : Z) :
  p ∈ start_parents (snd (perform c g))
  ↔ p ∈ start_parents g
    ∨ ∃ a, c = Add_link a (start g) ∧ p = a
           ∧ fst (add_link a (start g) g) = Ok tt.
Proof.
  destruct c as [k n d|a b]; simpl.
  - assert (start_parents (snd (add_entity k n d g)) = start_parents g) as ->.
    { destruct (entities g !! k) eqn:E.
      - by rewrite add_entity_present by eauto.
      - by rewrite add_entity_new. }
    split; [auto|]. intros [?|(a & Ha & _)]; done.
  - destruct (entities g !! a) eqn:Ea.
    + destruct (entities g !! b) eqn:Eb.
      * rewrite add_link_present by eauto. simpl.
        case_bool_decide as Hb.
        -- rewrite elem_of_union, elem_of_singleton. split.
           ++ intros [->|?]; [|by left]. right. exists a. subst b.
              split; [done|]. split; [done|].
              by rewrite add_link_present by eauto.
           ++ intros [?|(a' & Ha' & -> & _)]; [by right|].
              left. congruence.
        -- split; [auto|]. intros [?|(a' & Ha' & _)]; [done|]. congruence.
      * rewrite add_link_absent_to by eauto. simpl.
        split; [auto|]. intros [?|(a' & Ha' & -> & Hok)]; [done|].
        injection Ha' as -> ->. by rewrite add_link_absent_to in Hok by eauto.
    + rewrite add_link_absent_from by done. simpl.
      split; [auto|]. intros [?|(a' & Ha' & -> & Hok)]; [done|].
      injection Ha' as -> ->. by rewrite add_link_absent_from in Hok.
Qed.

(** [start_parents] holds exactly the ids that made a successful
    [add_link] call whose target is the start. *)
Lemma start_parents_linked (s : Z) (calls : list call) (p : Z) :
  p ∈ start_parents (graph_of s calls) ↔ linked_to s calls p s.
Proof.
  induction calls as [|c calls IH] using rev_ind.
  - simpl. split; [set_solver|].
    intros (before & after & Heq & _). by destruct before.
  - rewrite graph_of_snoc, perform_start_parents, IH, graph_of_start.
    split.
    + intros [(before & after & -> & Hok)|(a & -> & -> & Hok)].
      * exists before, (after ++ [c]). split; [|done].
        by rewrite <- app_assoc.
      * exists calls, []. done.
    + intros (before & after & Heq & Hok).
      destruct after as [|c' after _] using rev_ind.
      * apply app_inj_tail in Heq as [-> ->]. right. exists p. done.
      * rewrite app_comm_cons, app_assoc in Heq.
        apply app_inj_tail in Heq as [-> ->]. left.
        exists before, after. done.
Qed.

Lemma bridging_links (initial cloned : EntityGraph) :
  let bridging :=
    (λ parent, mkLink parent (start cloned))
      <$> elements (start_parents initial) in
  NoDup bridging
  ∧ ∀ l, l ∈ bridging
         ↔ l_to l = start cloned ∧ l_from l ∈ start_parents initial.
Proof.
  intros bridging. split.
  - apply NoDup_fmap_2; [|apply NoDup_elements].
    intros p1 p2 H. by injection H.
  - intros l. unfold bridging. rewrite list_elem_of_fmap. split.
    + intros (p & -> & Hp). apply elem_of_elements in Hp. done.
    + intros [Hto Hfrom]. exists (l_from l). split.
      * destruct l. simpl in *. by subst.
      * by apply elem_of_elements.
Qed.

(** ** Empty descriptions *)

Lemma normalize_entity_id (e : Entity) :
  description e ≠ Some "" → normalize_entity e = e.
Proof.
  intros Hd. destruct e as [k n [d|] cs]; unfold normalize_entity; simpl; [|done].
  destruct (String.eqb d "") eqn:E; [|done].
  apply String.eqb_eq in E. simpl in Hd. congruence.
Qed.

Lemma normalize_id (g : EntityGraph) :
  (∀ k e, entities g !! k = Some e → description e ≠ Some "") →
  normalize g = g.
Proof.
  intros Hd. apply graph_eq; [done| |done].
  apply map_eq. intros k. simpl. rewrite lookup_fmap.
  destruct (entities g !! k) as [e|] eqn:E; [|done]. simpl.
  f_equal. apply normalize_entity_id. eauto.
Qed.

Lemma edge_normalize (g : EntityGraph) (u w : Z) :
  edge (normalize g) u w ↔ edge g u w.
Proof.
  unfold edge. simpl. rewrite lookup_fmap. split.
  - intros (e' & He' & Hw). destruct (entities g !! u) as [e|]; [|done].
    simpl in He'. injection He' as <-. eauto.
  - intros (e & -> & Hw). exists (normalize_entity e). done.
Qed.


(** * The claims *)

(** In what follows "every graph" is every value [graph_of s calls]: the
    object made by [EntityGraph(s)] and any sequence of [add_entity] and
    [add_link] calls, failed calls included.  Its start is valid when
    [has_entity] finds [s] in it.  The fuel of [clone_subgraph] counts the
    entities taken from the queue. *)

(** C1: for every graph and valid start, [clone_subgraph] returns a cloned
    graph whose entities correspond one to one, through the [visited]
    mapping, to the entities reachable from the start (the start included):
    [visited] is defined exactly on the reachable ids, is injective, and its
    values are exactly the ids of the cloned graph, so the entity count
    equals the number of reachable entities; each clone has the name and the
    description of its source, under a different id. *)
Theorem clone_subgraph_entities (s : Z) (calls : list call) (fuel : nat) :
  let g := graph_of s calls in
  has_entity g s = true →
  (size (entities g) ≤ fuel)%nat →
  ∃ cg loc c',
    clone_subgraph fuel (EntityCloner_init g) = (Ok cg, c')
    ∧ clone_traversal fuel (EntityCloner_init g) = (Ok loc, c')
    ∧ (∀ u, is_Some (visited loc !! u) ↔ reachable g u)
    ∧ (∀ u', is_Some (entities cg !! u') ↔ ∃ u, visited loc !! u = Some u')
    ∧ (∀ u1 u2 u', visited loc !! u1 = Some u' →
                   visited loc !! u2 = Some u' → u1 = u2)
    ∧ (∃ R : gset Z, (∀ u, u ∈ R ↔ reachable g u)
                     ∧ size (entities cg) = size R)
    ∧ (∀ u u', visited loc !! u = Some u' →
         ∃ e e', entities g !! u = Some e ∧ entities cg !! u' = Some e'
                 ∧ name e' = name e ∧ description e' = description e
                 ∧ entity_id e = u ∧ entity_id e' = u' ∧ u' ≠ u).
Proof.
  intros g Hs Hfuel.
  pose proof (graph_of_wf s calls) as Hwf. fold g in Hwf.
  destruct (clone_traversal_spec g Hwf (graph_of_has_start s calls Hs))
    as (cg & n & v & Hinv & Hstart & Hrun).
  pose proof (clone_inv_visited_size _ _ _ _ Hinv) as Hsz.
  destruct (Hrun fuel) as [Hok _]. specialize (Hok ltac:(lia)).
  exists cg, (mkLocals v []), (mkCloner g (Some cg) n).
  split; [by eapply clone_subgraph_of_traversal|]. split; [done|]. simpl.
  assert (∀ u, is_Some (v !! u) ↔ reachable g u) as Hreach.
  { intros u. symmetry. apply (clone_inv_closed g cg v Hinv). eauto. }
  split; [done|]. split.
  { intros u'. split; [apply (inv_surj _ _ _ _ Hinv)|].
    intros [u Hu].
    destruct (inv_entity _ _ _ _ Hinv _ _ Hu) as (? & ? & ? & ? & _).
    eauto. }
  split; [apply (inv_inj _ _ _ _ Hinv)|]. split.
  { exists (dom v). split.
    - intros u. by rewrite elem_of_dom.
    - by rewrite size_dom, (inv_size _ _ _ _ Hinv). }
  intros u u' Hu.
  destruct (inv_entity _ _ _ _ Hinv _ _ Hu)
    as (e & e' & He & He' & Hi & Hn & Hd).
  exists e, e'. split; [done|]. split; [done|]. split; [done|]. split; [done|].
  split; [by apply (wf_id g Hwf)|]. split; [done|].
  intros ->. rewrite (inv_fresh _ _ _ _ Hinv u) in He; [done|eauto].
Qed.

Lemma clone_subgraph_entities_witness :
  has_entity cycle_graph 1 = true
  ∧ (size (entities cycle_graph) ≤ 3)%nat
  ∧ ∃ cg loc c',
      clone_subgraph 3 (EntityCloner_init cycle_graph) = (Ok cg, c')
      ∧ clone_traversal 3 (EntityCloner_init cycle_graph) = (Ok loc, c')
      ∧ (∀ u, is_Some (visited loc !! u) ↔ reachable cycle_graph u)
      ∧ ∃ R : gset Z, (∀ u, u ∈ R ↔ reachable cycle_graph u)
                      ∧ size (entities cg) = size R.
Proof.
  split; [vm_compute; reflexivity|]. split; [vm_compute; lia|].
  destruct (clone_subgraph_entities 1 cycle_calls 3)
    as (cg & loc & c' & H1 & H2 & H3 & _ & _ & H4 & _);
    [vm_compute; reflexivity|vm_compute; lia|].
  exists cg, loc, c'. auto.
Defined.



(** C3: the ids returned by any sequence of [generate_id] calls on a new
    cloner, whatever happens to the cloned graph between the calls, are
    positive and strictly increasing, and each is the id of no entity of the
    initial graph and of no entity of the cloned graph at the time of its
    call; so the ids of the finished cloned graph are disjoint from the ids
    of the initial graph. *)
Theorem generate_id_fresh_increasing (g : EntityGraph)
    (between : list (option EntityGraph))
    (s : Z) (calls : list call) (fuel : nat) :
  (∃ ids c',
     generate_ids between (EntityCloner_init g) = (Ok ids, c')
     ∧ Forall (λ id, 0 < id) ids
     ∧ StronglySorted Z.lt ids
     ∧ Forall2 (free_at g) ids between)
  ∧ (has_entity (graph_of s calls) s = true →
     (size (entities (graph_of s calls)) ≤ fuel)%nat →
     ∃ cg c',
       clone_subgraph fuel (EntityCloner_init (graph_of s calls)) = (Ok cg, c')
       ∧ dom (entities cg) ## dom (entities (graph_of s calls))).
Proof.
  split.
  - destruct (generate_ids_spec g between None 0)
      as (ids & c' & Hrun & _ & Hpos & Hsorted & Hfree).
    exists ids, c'. done.
  - intros Hs Hfuel.
    pose proof (graph_of_wf s calls) as Hwf.
    destruct (clone_traversal_spec _ Hwf (graph_of_has_start s calls Hs))
      as (cg & n & v & Hinv & Hstart & Hrun).
    pose proof (clone_inv_visited_size _ _ _ _ Hinv) as Hsz.
    destruct (Hrun fuel) as [Hok _]. specialize (Hok ltac:(lia)).
    exists cg, (mkCloner (graph_of s calls) (Some cg) n).
    split; [by eapply clone_subgraph_of_traversal|].
    apply elem_of_disjoint. intros k Hcg Hg.
    apply elem_of_dom in Hcg, Hg.
    rewrite (inv_fresh _ _ _ _ Hinv k Hcg) in Hg. by destruct Hg.
Qed.

Lemma generate_id_fresh_increasing_witness :
  has_entity cycle_graph 1 = true
  ∧ (size (entities cycle_graph) ≤ 3)%nat
  ∧ ∃ cg c',
      clone_subgraph 3 (EntityCloner_init cycle_graph) = (Ok cg, c')
      ∧ dom (entities cg) ## dom (entities cycle_graph).
Proof.
  split; [vm_compute; reflexivity|]. split; [vm_compute; lia|].
  apply (generate_id_fresh_increasing cycle_graph [] 1 cycle_calls 3);
    [vm_compute; reflexivity|vm_compute; lia].
Defined.

(** C4, as stated, fails twice: a graph whose start was never added cannot
    be rebuilt at all, and an entity whose description is the empty string
    comes back without a description. *)
Lemma round_trip_counterexample :
  build_from_data (start startless_graph) (EntityGraph_to_dict startless_graph)
  = Raise (ValueError_not_in_provided 5)
  ∧ ∃ g', build_from_data (start blank_graph) (EntityGraph_to_dict blank_graph)
          = Ok g'
          ∧ description <$> entities blank_graph !! 1 = Some (Some "")
          ∧ description <$> entities g' !! 1 = Some None.
Proof.
  split; [vm_compute; reflexivity|].
  exists (normalize blank_graph). repeat split; vm_compute; reflexivity.
Qed.

(** C4, amended: for every graph whose start is one of its entities,
    [build_from_data] applied to the graph's own [to_dict] record and start
    succeeds and gives the graph back with every empty description dropped:
    same start, ids, names, children and [start_parents], hence the same
    links; it is the very same graph when no description is the empty
    string. *)
Theorem to_dict_build_round_trip (s : Z) (calls : list call) :
  let g := graph_of s calls in
  has_entity g s = true →
  build_from_data s (EntityGraph_to_dict g) = Ok (normalize g)
  ∧ (∀ u w, edge (normalize g) u w ↔ edge g u w)
  ∧ (∀ k, entities (normalize g) !! k = normalize_entity <$> entities g !! k)
  ∧ ((∀ k e, entities g !! k = Some e → description e ≠ Some "") →
     normalize g = g).
Proof.
  intros g Hs.
  pose proof (graph_of_wf s calls) as Hwf. fold g in Hwf.
  pose proof (graph_of_has_start s calls Hs) as Hstart. fold g in Hstart.
  pose proof (build_from_to_dict g Hwf Hstart) as Hbuild.
  unfold g in Hbuild at 1. rewrite graph_of_start in Hbuild.
  split; [done|]. split; [apply edge_normalize|]. split.
  - intros k. simpl. by rewrite lookup_fmap.
  - apply normalize_id.
Qed.

Lemma to_dict_build_round_trip_witness :
  has_entity cycle_graph 1 = true
  ∧ build_from_data 1 (EntityGraph_to_dict cycle_graph)
    = Ok (normalize cycle_graph).
Proof.
  split; [vm_compute; reflexivity|].
  apply (to_dict_build_round_trip 1 cycle_calls). vm_compute; reflexivity.
Defined.

(** C5: for every initial graph and every cloned graph, [construct_output]
    returns the entity records of the initial graph followed by those of the
    cloned graph, and the link records of the initial graph, then those of
    the cloned graph, then the bridging links: exactly one link from [p] to
    the start of the cloned graph for each [p] in the initial graph's
    [start_parents], which holds exactly the ids that made a successful
    [add_link] call whose target was the start. *)
Theorem construct_output_spec (s : Z) (calls : list call)
    (cloned : EntityGraph) :
  let initial := graph_of s calls in
  let out := construct_output initial cloned in
  d_entities out
  = d_entities (EntityGraph_to_dict initial)
    ++ d_entities (EntityGraph_to_dict cloned)
  ∧ ∃ bridging,
      d_links out
      = d_links (EntityGraph_to_dict initial)
        ++ d_links (EntityGraph_to_dict cloned) ++ bridging
      ∧ NoDup bridging
      ∧ (∀ l, l ∈ bridging
              ↔ l_to l = start cloned ∧ l_from l ∈ start_parents initial)
      ∧ (∀ p, p ∈ start_parents initial ↔ linked_to s calls p s).
Proof.
  intros initial out. split; [done|].
  destruct (bridging_links initial cloned) as [Hnd Hin].
  eexists. split; [reflexivity|]. split; [done|]. split; [done|].
  intros p. apply start_parents_linked.
Qed.

(** C6: [add_entity] raises the duplicate-entity [ValueError] if and only if
    the id is already a key of [entities], and otherwise stores a new entity
    with the given name and description and no children; [add_link] raises
    the unknown-entity [LookupError] if and only if the source or the target
    id is absent; a call that raises leaves the graph (entities, links and
    [start_parents]) as it was. *)
Theorem add_entity_add_link_errors (g : EntityGraph)
    (k : Z) (n : string) (d : option string) (a b : Z) :
  (fst (add_entity k n d g) = Raise (ValueError_already_present k)
   ↔ has_entity g k = true)
  ∧ (fst (add_entity k n d g) = Ok tt ↔ has_entity g k = false)
  ∧ (has_entity g k = true → snd (add_entity k n d g) = g)
  ∧ (has_entity g k = false →
     snd (add_entity k n d g)
     = mkGraph (start g) (<[k := mkEntity k n d ∅]> (entities g))
               (start_parents g))
  ∧ ((∃ k', fst (add_link a b g) = Raise (LookupError_no_entity k'))
     ↔ has_entity g a = false ∨ has_entity g b = false)
  ∧ (fst (add_link a b g) = Ok tt
     ↔ has_entity g a = true ∧ has_entity g b = true)
  ∧ (has_entity g a = false ∨ has_entity g b = false →
     snd (add_link a b g) = g).
Proof.
  unfold has_entity.
  assert (fst (add_entity k n d g)
          = (if contains k (entities g)
             then Raise (ValueError_already_present k) else Ok tt)
          ∧ (contains k (entities g) = true → snd (add_entity k n d g) = g)
          ∧ (contains k (entities g) = false →
             snd (add_entity k n d g)
             = mkGraph (start g) (<[k := mkEntity k n d ∅]> (entities g))
                       (start_parents g))) as (He1 & He2 & He3).
  { destruct (contains k (entities g)) eqn:E.
    - apply contains_true in E. rewrite add_entity_present by done. done.
    - apply contains_false in E. rewrite add_entity_new by done. done. }
  assert ((contains a (entities g) = true ∧ contains b (entities g) = true
           ∧ fst (add_link a b g) = Ok tt)
          ∨ ((contains a (entities g) = false ∨ contains b (entities g) = false)
             ∧ ∃ k', add_link a b g = (Raise (LookupError_no_entity k'), g)))
    as Hl.
  { destruct (contains a (entities g)) eqn:Ea.
    - destruct (contains b (entities g)) eqn:Eb.
      + apply contains_true in Ea, Eb. left.
        by rewrite add_link_present by done.
      + apply contains_true in Ea. apply contains_false in Eb. right.
        split; [by right|]. rewrite add_link_absent_to by done. eauto.
    - apply contains_false in Ea. right.
      split; [by left|]. rewrite add_link_absent_from by done. eauto. }
  split; [|split; [|split; [done|split; [done|split; [|split]]]]].
  - rewrite He1. by destruct (contains k (entities g)).
  - rewrite He1. by destruct (contains k (entities g)).
  - destruct Hl as [(Ha & Hb & Hok)|[Hab (k' & Hk')]].
    + rewrite Hok, Ha, Hb. split; [by intros [? ?]|by intros [?|?]].
    + rewrite Hk'. simpl. split; [done|eauto].
  - destruct Hl as [(Ha & Hb & Hok)|[Hab (k' & Hk')]].
    + by rewrite Hok, Ha, Hb.
    + rewrite Hk'. simpl. split; [done|]. intros [Ha Hb].
      destruct Hab; congruence.
  - intros Hab. destruct Hl as [(Ha & Hb & Hok)|[_ (k' & Hk')]].
    + destruct Hab; congruence.
    + by rewrite Hk'.
Qed.

Lemma add_entity_add_link_errors_witness :
  has_entity cycle_graph 1 = true
  ∧ snd (add_entity 1 "Again" None cycle_graph) = cycle_graph
  ∧ (has_entity cycle_graph 1 = false ∨ has_entity cycle_graph 9 = false)
  ∧ snd (add_link 1 9 cycle_graph) = cycle_graph.
Proof.
  destruct (add_entity_add_link_errors cycle_graph 1 "Again" None 1 9)
    as (_ & _ & Hdup & _ & _ & _ & Hunknown).
  split; [vm_compute; reflexivity|].
  split; [apply Hdup; vm_compute; reflexivity|].
  split; [right; vm_compute; reflexivity|].
  apply Hunknown. right. vm_compute; reflexivity.
Defined.

(** C7, as stated, fails: a record that lists an id twice raises the
    duplicate-entity error before the start is looked for, also when the
    start is not among the supplied entities. *)
Lemma build_from_data_counterexample :
  (2 ∉ ids_of twice_data)
  ∧ build_from_data 2 twice_data = Raise (ValueError_already_present 1).
Proof.
  split; [|vm_compute; reflexivity].
  unfold ids_of, twice_data. simpl. intros H.
  apply elem_of_cons in H as [H|H]; [done|].
  apply elem_of_cons in H as [H|H]; [done|].
  by apply elem_of_nil in H.
Qed.

(** C7, amended: [build_from_data] adds all entities and then all links, in
    the given order, so that a graph it returns is the one these calls make;
    it raises the missing-start [ValueError] exactly when the supplied ids
    are pairwise distinct and the start is not among them; it raises
    [add_entity]'s error exactly when an id is supplied twice, and
    [add_link]'s error exactly when the ids are distinct, the start is among
    them and some link names an id that is not. *)
Theorem build_from_data_spec (start : Z) (data : Data) :
  let ids := ids_of data in
  let known := λ l, l_from l ∈ ids ∧ l_to l ∈ ids in
  (build_from_data start data = Raise (ValueError_not_in_provided start)
   ↔ NoDup ids ∧ (start ∉ ids))
  ∧ ((∃ inst, build_from_data start data = Ok inst)
     ↔ NoDup ids ∧ start ∈ ids ∧ Forall known (d_links data))
  ∧ (∀ inst, build_from_data start data = Ok inst →
             inst = graph_of start (calls_of data))
  ∧ ((∃ k, build_from_data start data = Raise (ValueError_already_present k))
     ↔ ¬ NoDup ids)
  ∧ ((∃ k, build_from_data start data = Raise (LookupError_no_entity k))
     ↔ NoDup ids ∧ start ∈ ids ∧ ¬ Forall known (d_links data)).
Proof.
  intros ids known.
  destruct (build_from_data_cases start data)
    as [[Hnd (k & ->)]
       |[(Hnd & Hs & ->)
        |[(Hnd & Hs & Hl & k & Hk & ->)|(Hnd & Hs & Hl & ->)]]];
    fold ids in Hnd; try fold ids in Hs; try fold ids known in Hl.
  - split; [split; [done|by intros [? _]]|].
    split; [split; [by intros [? ?]|by intros (? & _)]|].
    split; [done|]. split; [split; [done|eauto]|].
    split; [by intros [? ?]|by intros (? & _)].
  - split; [done|].
    split; [split; [by intros [? ?]|by intros (_ & ? & _)]|].
    split; [done|]. split; [split; [by intros [? ?]|done]|].
    split; [by intros [? ?]|by intros (_ & ? & _)].
  - split; [split; [done|by intros [_ ?]]|].
    split; [split; [by intros [? ?]|by intros (_ & _ & ?)]|].
    split; [done|]. split; [split; [by intros [? ?]|done]|].
    split; [done|eauto].
  - split; [split; [done|by intros [_ ?]]|].
    split; [split; [done|eauto]|].
    split; [by intros inst [= <-]|].
    split; [split; [by intros [? ?]|done]|].
    split; [by intros [? ?]|by intros (_ & _ & ?)].
Qed.

Lemma build_from_data_spec_witness :
  build_from_data 1 (EntityGraph_to_dict cycle_graph)
  = Ok (normalize cycle_graph)
  ∧ normalize cycle_graph
    = graph_of 1 (calls_of (EntityGraph_to_dict cycle_graph)).
Proof.
  split; [vm_compute; reflexivity|].
  apply (build_from_data_spec 1 (EntityGraph_to_dict cycle_graph)).
  vm_compute; reflexivity.
Defined.

(** C8: when the start of the initial graph is one of its entities,
    [clone_subgraph] raises nothing, however far it is run: every
    [add_entity] it makes finds its id new in the cloned graph and every
    [add_link] finds both ids there; run long enough it returns. *)
Theorem clone_subgraph_never_raises (s : Z) (calls : list call) (fuel : nat) :
  let g := graph_of s calls in
  has_entity g s = true →
  (∀ e, fst (clone_subgraph fuel (EntityCloner_init g)) ≠ Raise e)
  ∧ ((size (entities g) ≤ fuel)%nat →
     ∃ cg c', clone_subgraph fuel (EntityCloner_init g) = (Ok cg, c')).
Proof.
  intros g Hs.
  pose proof (graph_of_wf s calls) as Hwf. fold g in Hwf.
  destruct (clone_traversal_spec g Hwf (graph_of_has_start s calls Hs))
    as (cg & n & v & Hinv & Hstart & Hrun).
  pose proof (clone_inv_visited_size _ _ _ _ Hinv) as Hsz.
  destruct (Hrun fuel) as [Hok Hout]. split.
  - intros e. destruct (decide (size v ≤ fuel)%nat) as [Hle|Hgt].
    + by rewrite (clone_subgraph_of_traversal _ _ _ _ _ _ (Hok Hle)).
    + rewrite clone_subgraph_out_of_fuel; [done|]. apply Hout. lia.
  - intros Hfuel. eexists _, _.
    eapply clone_subgraph_of_traversal. apply Hok. lia.
Qed.

Lemma clone_subgraph_never_raises_witness :
  has_entity cycle_graph 1 = true
  ∧ (∀ e, fst (clone_subgraph 2 (EntityCloner_init cycle_graph)) ≠ Raise e).
Proof.
  split; [vm_compute; reflexivity|].
  apply (clone_subgraph_never_raises 1 cycle_calls 2). vm_compute; reflexivity.
Defined.

(** C9: for every graph and valid start, [clone_subgraph] terminates, after
    taking from the queue exactly as many entities as are reachable from the
    start, which are at most the entities of the graph: each reachable
    entity is queued once.  One pass of the loop body never removes an entry
    of [visited], and it queues a child exactly when it records the child's
    id in [visited] for the first time. *)
Theorem clone_subgraph_terminates (s : Z) (calls : list call) :
  let g := graph_of s calls in
  has_entity g s = true →
  (∃ R : gset Z,
     (∀ u, u ∈ R ↔ reachable g u)
     ∧ (size R ≤ size (entities g))%nat
     ∧ ∀ fuel : nat,
         ((size R ≤ fuel)%nat →
          ∃ cg c', clone_subgraph fuel (EntityCloner_init g) = (Ok cg, c'))
         ∧ ((fuel < size R)%nat →
            fst (clone_subgraph fuel (EntityCloner_init g)) = OutOfFuel))
  ∧ (∀ cur r loc c loc' c',
       visit_child cur r loc c = (Ok loc', c') →
       visited loc ⊆ visited loc'
       ∧ ((is_Some (visited loc !! r)
           ∧ visited loc' = visited loc ∧ queue loc' = queue loc)
          ∨ (visited loc !! r = None
             ∧ ∃ child n, entities (initial_graph c) !! r = Some child
                          ∧ visited loc' = <[r := n]> (visited loc)
                          ∧ queue loc' = queue loc ++ [child]))).
Proof.
  intros g Hs. split; [|apply visit_child_enqueue].
  pose proof (graph_of_wf s calls) as Hwf. fold g in Hwf.
  destruct (clone_traversal_spec g Hwf (graph_of_has_start s calls Hs))
    as (cg & n & v & Hinv & Hstart & Hrun).
  pose proof (clone_inv_visited_size _ _ _ _ Hinv) as Hsz.
  exists (dom v). split; [|split].
  - intros u. rewrite elem_of_dom. symmetry.
    apply (clone_inv_closed g cg v Hinv). eauto.
  - by rewrite size_dom.
  - intros fuel. rewrite size_dom. destruct (Hrun fuel) as [Hok Hout]. split.
    + intros Hfuel. eexists _, _.
      eapply clone_subgraph_of_traversal. by apply Hok.
    + intros Hfuel. apply clone_subgraph_out_of_fuel. by apply Hout.
Qed.

Lemma clone_subgraph_terminates_witness :
  has_entity cycle_graph 1 = true
  ∧ ∃ R : gset Z,
      (∀ u, u ∈ R ↔ reachable cycle_graph u)
      ∧ (size R ≤ size (entities cycle_graph))%nat
      ∧ ∀ fuel : nat,
          ((size R ≤ fuel)%nat →
           ∃ cg c',
             clone_subgraph fuel (EntityCloner_init cycle_graph) = (Ok cg, c'))
          ∧ ((fuel < size R)%nat →
             fst (clone_subgraph fuel (EntityCloner_init cycle_graph))
             = OutOfFuel).
Proof.
  split; [vm_compute; reflexivity|].
  apply (clone_subgraph_terminates 1 cycle_calls). vm_compute; reflexivity.
Defined.

(** C10: [clone_subgraph] leaves the initial graph as it was: the cloner's
    [initial_graph] after the call, however the call ends, is the one before
    it, with its start, its entities (ids, names, descriptions and children)
    and its [start_parents]. *)
Theorem clone_subgraph_initial_unchanged (fuel : nat) (c : EntityCloner) :
  let c' := snd (clone_subgraph fuel c) in
  initial_graph c' = initial_graph c
  ∧ start (initial_graph c') = start (initial_graph c)
  ∧ entities (initial_graph c') = entities (initial_graph c)
  ∧ start_parents (initial_graph c') = start_parents (initial_graph c).
Proof.
  intros c'.
  assert (initial_graph c' = initial_graph c) as ->; [|done].
  subst c'. unfold clone_subgraph.
  apply keeps_bind; [apply keeps_clone_traversal|].
  intros _ c1. change ((get ≫= ?k) c1) with (k c1 c1). cbv beta.
  by destruct (cloned_graph c1).
Qed.

(** * The test suite, evaluated *)

Example test_generate_id :
  fst ((a ← generate_id; b ← generate_id; c ← generate_id; M_ret [a; b; c])
         (EntityCloner_init gap_graph))
  = Ok [4; 6; 7].
Proof. vm_compute. reflexivity. Qed.

Example test_clone_subgraph_cycle :
  clone_subgraph 3 (EntityCloner_init cycle_graph)
  = (Ok cycle_clone, mkCloner cycle_graph (Some cycle_clone) 6).
Proof. vm_compute. reflexivity. Qed.

Example test_clone_self_loop :
  fst (clone_subgraph 1 (EntityCloner_init loop_graph))
  = Ok (graph_of 2 [Add_entity 2 "A" None; Add_link 2 2]).
Proof. vm_compute. reflexivity. Qed.

(** The example of the specification: entity 3 links to the start, so the
    output gains the link from 3 to the cloned start 4, and only that one. *)
Example test_construct_output_cycle :
  d_links (construct_output cycle_graph cycle_clone)
  = d_links (EntityGraph_to_dict cycle_graph)
    ++ d_links (EntityGraph_to_dict cycle_clone) ++ [mkLink 3 4].
Proof. vm_compute. reflexivity. Qed.

Example test_to_dict_description :
  Entity_to_dict (Entity_init 1 "Name" None) = mkEntityRecord 1 "Name" None
  ∧ Entity_to_dict (Entity_init 1 "Name" (Some "Desc"))
    = mkEntityRecord 1 "Name" (Some "Desc").
Proof. split; reflexivity. Qed.

(** * Lemmas for the rest of the program *)

(** ** Equality of entities *)

Lemma Entity_eq_spec (a b : Entity) :
  Entity_eq a b = true
  ↔ entity_id a = entity_id b ∧ name a = name b
    ∧ description a = description b.
Proof.
  unfold Entity_eq. rewrite !andb_true_iff, !bool_decide_eq_true. tauto.
Qed.

(** ** Calls only add *)

Lemma perform_grows (c : call) (g : EntityGraph) :
  (∀ k e, entities g !! k = Some e →
     ∃ e', entities (snd (perform c g)) !! k = Some e'
           ∧ entity_id e' = entity_id e ∧ name e' = name e
           ∧ description e' = description e ∧ children e ⊆ children e')
  ∧ start_parents g ⊆ start_parents (snd (perform c g)).
Proof.
  destruct c as [k n d|a b]; simpl.
  - destruct (entities g !! k) eqn:E.
    + rewrite add_entity_present by eauto. simpl. split; [|done].
      intros k' e' He'. exists e'. done.
    + rewrite add_entity_new by done. simpl. split; [|done].
      intros k' e' He'. exists e'. split; [|done].
      rewrite lookup_insert_ne; [done|]. intros ->. congruence.
  - destruct (entities g !! a) eqn:Ea.
    + destruct (entities g !! b) eqn:Eb.
      * rewrite add_link_present by eauto. simpl. split.
        -- intros k e' He'. destruct (decide (a = k)) as [->|Hne].
           ++ exists (add_child b e'). rewrite lookup_alter_eq, He'. simpl.
              split; [done|]. split; [done|]. split; [done|]. split; [done|].
              apply union_subseteq_r.
           ++ exists e'. by rewrite lookup_alter_ne.
        -- case_bool_decide; [apply union_subseteq_r|done].
      * rewrite add_link_absent_to by eauto. simpl. split; [|done].
        intros k' e' He'. exists e'. done.
    + rewrite add_link_absent_from by done. simpl. split; [|done].
      intros k' e' He'. exists e'. done.
Qed.

Lemma after_calls_grows (calls : list call) :
  ∀ g,
  (∀ k e, entities g !! k = Some e →
     ∃ e', entities (after_calls calls g) !! k = Some e'
           ∧ entity_id e' = entity_id e ∧ name e' = name e
           ∧ description e' = description e ∧ children e ⊆ children e')
  ∧ start_parents g ⊆ start_parents (after_calls calls g).
Proof.
  induction calls as [|c calls IH]; intros g.
  - split; [|done]. intros k e He. exists e. done.
  - rewrite after_calls_cons.
    destruct (perform_grows c g) as [H1 H2].
    destruct (IH (snd (perform c g))) as [H3 H4]. split; [|by etrans].
    intros k e He. destruct (H1 k e He) as (e1 & He1 & Hi1 & Hn1 & Hd1 & Hc1).
    destruct (H3 k e1 He1) as (e2 & He2 & Hi2 & Hn2 & Hd2 & Hc2).
    exists e2. split; [done|]. split; [congruence|]. split; [congruence|].
    split; [congruence|]. by etrans.
Qed.

(** ** [add_link] twice, and in either order *)

Lemma add_child_comm (b d : Z) (e : Entity) :
  add_child d (add_child b e) = add_child b (add_child d e).
Proof.
  unfold add_child. simpl. f_equal. apply set_eq. intros x.
  rewrite !elem_of_union. tauto.
Qed.

Lemma add_child_idemp (b : Z) (e : Entity) :
  add_child b (add_child b e) = add_child b e.
Proof.
  unfold add_child. simpl. f_equal. apply set_eq. intros x.
  rewrite !elem_of_union. tauto.
Qed.

Lemma alter_add_child_comm (a b c d : Z) (m : gmap Z Entity) :
  alter (add_child d) c (alter (add_child b) a m)
  = alter (add_child b) a (alter (add_child d) c m).
Proof.
  apply map_eq. intros k. rewrite !lookup_alter.
  repeat case_decide; subst; try done.
  destruct (m !! k) as [e|]; [|done]. simpl. f_equal. apply add_child_comm.
Qed.

Lemma alter_add_child_twice (a b : Z) (m : gmap Z Entity) :
  alter (add_child b) a (alter (add_child b) a m) = alter (add_child b) a m.
Proof.
  apply map_eq. intros k. rewrite !lookup_alter.
  repeat case_decide; subst; try done.
  destruct (m !! k) as [e|]; [|done]. simpl. f_equal. apply add_child_idemp.
Qed.

Lemma add_link_result (g : EntityGraph) (a b : Z) :
  snd (add_link a b g)
  = if contains a (entities g) && contains b (entities g)
    then mkGraph (start g) (alter (add_child b) a (entities g))
           (if bool_decide (b = start g)
            then {[a]} ∪ start_parents g else start_parents g)
    else g.
Proof.
  destruct (contains a (entities g)) eqn:Ea.
  - destruct (contains b (entities g)) eqn:Eb.
    + apply contains_true in Ea, Eb. by rewrite add_link_present.
    + apply contains_true in Ea. apply contains_false in Eb.
      by rewrite add_link_absent_to.
  - apply contains_false in Ea. by rewrite add_link_absent_from.
Qed.

Lemma contains_alter (f : Entity → Entity) (i k : Z) (m : gmap Z Entity) :
  contains k (alter f i m) = contains k m.
Proof.
  destruct (contains k m) eqn:E.
  - apply contains_true. rewrite lookup_alter_is_Some. by apply contains_true.
  - apply contains_false. apply lookup_alter_None. by apply contains_false.
Qed.

Lemma add_link_twice (g : EntityGraph) (a b : Z) :
  snd (add_link a b (snd (add_link a b g))) = snd (add_link a b g).
Proof.
  rewrite (add_link_result g a b).
  destruct (contains a (entities g) && contains b (entities g)) eqn:E.
  - rewrite add_link_result. simpl. rewrite !contains_alter, E.
    apply graph_eq; simpl.
    + done.
    + apply alter_add_child_twice.
    + case_bool_decide; [|done]. apply set_eq. intros x.
      rewrite !elem_of_union. tauto.
  - rewrite add_link_result. by rewrite E.
Qed.

Lemma add_link_swap (g : EntityGraph) (a b c d : Z) :
  snd (add_link c d (snd (add_link a b g)))
  = snd (add_link a b (snd (add_link c d g))).
Proof.
  rewrite (add_link_result g a b), (add_link_result g c d).
  destruct (contains a (entities g) && contains b (entities g)) eqn:E1;
    destruct (contains c (entities g) && contains d (entities g)) eqn:E2;
    rewrite !add_link_result; simpl; rewrite ?contains_alter, ?E1, ?E2;
    try done.
  apply graph_eq; simpl.
  - done.
  - apply alter_add_child_comm.
  - repeat case_bool_decide; try done.
    apply set_eq. intros x. rewrite !elem_of_union. tauto.
Qed.

(** ** [generate_id] returns the least free id *)

Lemma generate_id_loop_least (fuel : nat) g cgo (n : Z) :
  (size (filter (λ x, (n ≤ x)%Z) (ids_used g cgo)) ≤ fuel)%nat →
  ∃ n', n ≤ n'
    ∧ generate_id_loop fuel (mkCloner g cgo n) = (Ok tt, mkCloner g cgo n')
    ∧ (n' ∉ ids_used g cgo)
    ∧ ∀ m, n ≤ m < n' → m ∈ ids_used g cgo.
Proof.
  intros Hsize.
  destruct (generate_id_loop_spec fuel g cgo n Hsize)
    as (n' & Hle & Hrun & Hfree).
  exists n'. split; [done|]. split; [done|]. split; [done|].
  clear Hsize. revert n Hle Hrun.
  induction fuel as [|fuel IH]; intros n Hle Hrun m Hm.
  - simpl in Hrun. unfold_M.
    destruct (id_taken (mkCloner g cgo n)) eqn:E; [done|].
    injection Hrun as Hn. lia.
  - simpl in Hrun. unfold_M.
    destruct (id_taken (mkCloner g cgo n)) eqn:E.
    + apply id_taken_spec in E. unfold set_current_id in Hrun. simpl in Hrun.
      destruct (decide (m = n)) as [->|Hne]; [done|].
      assert (n + 1 ≤ n') as Hle'.
      { destruct (decide (n' = n)) as [->|?]; [done|lia]. }
      apply (IH (n + 1) Hle' Hrun). lia.
    + injection Hrun as Hn. lia.
Qed.

Lemma generate_id_least g cgo n :
  ∃ n', n < n'
    ∧ generate_id (mkCloner g cgo n) = (Ok n', mkCloner g cgo n')
    ∧ (n' ∉ ids_used g cgo)
    ∧ ∀ m, n < m < n' → m ∈ ids_used g cgo.
Proof.
  destruct (generate_id_loop_least (ids_in_use (mkCloner g cgo n)) g cgo (n + 1))
    as (n' & Hle & Hrun & Hfree & Hleast).
  { etrans; [|apply ids_used_size].
    apply subseteq_size. intros x. rewrite elem_of_filter. tauto. }
  exists n'. split; [lia|]. split; [|split; [done|]].
  - unfold generate_id. unfold_M. unfold set_current_id. simpl.
    simpl in Hrun. by rewrite Hrun.
  - intros m Hm. apply Hleast. lia.
Qed.

Lemma ids_used_spec g cgo (m : Z) :
  m ∈ ids_used g cgo
  ↔ has_entity g m = true
    ∨ ∃ cg, cgo = Some cg ∧ has_entity cg m = true.
Proof.
  unfold ids_used, has_entity. rewrite elem_of_union, contains_true, elem_of_dom.
  destruct cgo as [cg|].
  - rewrite elem_of_dom. split; intros [?|H]; auto.
    + right. exists cg. by rewrite contains_true.
    + destruct H as (cg' & [= <-] & H). right. by apply contains_true.
  - rewrite elem_of_empty. split; intros [?|H]; auto; [done|].
    by destruct H as (? & ? & _).
Qed.

(** ** The cloned graph is a graph object *)

Lemma cwf_ret {A} (a : A) : keeps_cloned_wf (M_ret a).
Proof. intros c H cg' Hc. by apply H. Qed.

Lemma cwf_raise {A} (e : exn) : keeps_cloned_wf (raise (A := A) e).
Proof. intros c H cg' Hc. by apply H. Qed.

Lemma cwf_bind {A B} (m : M EntityCloner A) (k : A → M EntityCloner B) :
  keeps_cloned_wf m → (∀ a, keeps_cloned_wf (k a)) →
  keeps_cloned_wf (m ≫= k).
Proof.
  intros Hm Hk c H. unfold_M. specialize (Hm c H).
  destruct (m c) as [[a|e|] c1]; simpl in *; [|done..].
  by apply Hk.
Qed.

Lemma cwf_generate_id : keeps_cloned_wf generate_id.
Proof.
  intros [g cgo n] H. destruct (generate_id_spec g cgo n) as (n' & _ & -> & _).
  done.
Qed.

Lemma cwf_subscript (d : gmap Z Z) (k : Z) : keeps_cloned_wf (subscript d k).
Proof. intros c H. unfold subscript. by destruct (d !! k). Qed.

Lemma cwf_on_cloned (call : call) :
  keeps_cloned_wf (on_cloned (perform call)).
Proof.
  intros [g [cg|] n] H cg'; unfold on_cloned; simpl; [|done].
  pose proof (perform_wf call cg (H cg eq_refl)) as Hwf.
  destruct (perform call cg) as [r cg1]. simpl in *. by intros [= <-].
Qed.

Lemma cwf_visit_child cur r loc : keeps_cloned_wf (visit_child cur r loc).
Proof.
  intros c. unfold visit_child.
  change ((get ≫= ?k) c) with (k c c). cbv beta.
  destruct (entities (initial_graph c) !! r) as [child|]; [|apply cwf_raise].
  destruct (negb (contains r (visited loc))).
  - apply cwf_bind; [apply cwf_generate_id|]. intros n.
    apply cwf_bind;
      [apply (cwf_on_cloned (Add_entity n (name child) (description child)))|].
    intros _.
    apply cwf_bind; [apply cwf_subscript|]. intros p.
    apply cwf_bind; [apply (cwf_on_cloned (Add_link p n))|]. intros _.
    apply cwf_ret.
  - apply cwf_bind; [apply cwf_subscript|]. intros p.
    apply cwf_bind; [apply cwf_subscript|]. intros t.
    apply cwf_bind; [apply (cwf_on_cloned (Add_link p t))|]. intros _.
    apply cwf_ret.
Qed.

Lemma cwf_visit_children cur refs :
  ∀ loc, keeps_cloned_wf (visit_children cur refs loc).
Proof.
  induction refs as [|r refs IH]; intros loc; simpl.
  - apply cwf_ret.
  - apply cwf_bind; [apply cwf_visit_child|done].
Qed.

Lemma cwf_traverse fuel : ∀ loc, keeps_cloned_wf (traverse fuel loc).
Proof.
  induction fuel as [|fuel IH]; intros loc; simpl.
  - destruct (queue loc); [apply cwf_ret|]. intros c H cg' Hc. by apply H.
  - destruct (queue loc) as [|cur rest]; [apply cwf_ret|].
    apply cwf_bind; [apply cwf_visit_children|done].
Qed.

Lemma clone_traversal_wf fuel c cg' :
  cloned_graph (snd (clone_traversal fuel c)) = Some cg' → wf cg'.
Proof.
  unfold clone_traversal.
  change ((get ≫= ?k) c) with (k c c). cbv beta zeta.
  destruct c as [g cgo n].
  destruct (generate_id_spec g cgo n) as (n' & _ & Hgen & _).
  unfold_M. rewrite Hgen. simpl. unfold set_cloned_graph. simpl.
  destruct (get_start g) as [cur|].
  - apply (cwf_bind
             (on_cloned (perform (Add_entity n' (name cur) (description cur))))
             (λ _, traverse fuel
                     (mkLocals {[entity_id cur := n']} [cur]))).
    + apply cwf_on_cloned.
    + intros _. apply cwf_traverse.
    + simpl. intros cg [= <-]. apply wf_init.
  - simpl. intros [= <-]. apply wf_init.
Qed.

(** ** The cloned ids fill the gaps of the initial graph *)

Lemma visit_child_dense cur r loc c loc' c' :
  visit_child cur r loc c = (Ok loc', c') → dense c → dense c'.
Proof.
  unfold visit_child. unfold_M. simpl.
  destruct c as [g cgo n]. simpl.
  destruct (entities g !! r) as [child|]; [|done].
  destruct (negb (contains r (visited loc))).
  - destruct (generate_id_least g cgo n) as (n' & Hlt & Hgen & Hfree & Hleast).
    rewrite Hgen. destruct cgo as [cg|]; [|done].
    assert (entities cg !! n' = None) as Hcg.
    { apply not_elem_of_dom. intros H. apply Hfree. unfold ids_used.
      apply elem_of_union. by right. }
    assert (entities g !! n' = None) as Hg.
    { apply not_elem_of_dom. intros H. apply Hfree. unfold ids_used.
      apply elem_of_union. by left. }
    rewrite (on_cloned_run _ _ _ _ _ _
               (add_entity_new cg n' (name child) (description child) Hcg)).
    unfold subscript. destruct (visited loc !! entity_id cur) as [p|]; [|done].
    unfold_M. unfold on_cloned. simpl.
    destruct (add_link p n' _) as [[[]| |] cg2] eqn:Hlink; try done.
    intros [= <- <-] [Hpos Hdense]. split; [simpl in *; lia|].
    intros cg' [= <-] m. simpl in Hpos.
    assert (∀ k, is_Some (entities cg2 !! k)
                 ↔ k = n' ∨ is_Some (entities cg !! k)) as Hdom.
    { intros k.
      pose proof (f_equal snd Hlink) as Hsnd. simpl in Hsnd.
      rewrite add_link_result in Hsnd. simpl in Hsnd. rewrite <- Hsnd.
      assert ((n' = k ∨ n' ≠ k ∧ is_Some (entities cg !! k))
              ↔ k = n' ∨ is_Some (entities cg !! k)) as Hor.
      { split.
        - intros [->|[_ ?]]; auto.
        - intros [->|?]; [by left|].
          destruct (decide (n' = k)); [by left|by right]. }
      destruct (_ && _); simpl.
      - by rewrite lookup_alter_is_Some, lookup_insert_is_Some.
      - by rewrite lookup_insert_is_Some. }
    rewrite Hdom. simpl. rewrite (Hdense cg eq_refl m). simpl. split.
    + intros [->|[Hm Hgm]]; [split; [lia|done]|]. split; [lia|done].
    + intros [Hm Hgm]. destruct (decide (m = n')) as [->|Hne]; [by left|].
      right. split; [|done].
      destruct (decide (m ≤ n)) as [?|Hgt]; [lia|].
      assert (m ∈ ids_used g (Some cg)) as Hin by (apply Hleast; lia).
      unfold ids_used in Hin. apply elem_of_union in Hin as [Hin|Hin].
      * apply elem_of_dom in Hin. rewrite Hgm in Hin. by destruct Hin.
      * apply elem_of_dom in Hin. apply (Hdense cg eq_refl) in Hin.
        simpl in Hin. lia.
  - unfold subscript. destruct (visited loc !! entity_id cur) as [p|]; [|done].
    destruct (visited loc !! r) as [t|]; [|done].
    unfold_M. unfold on_cloned. simpl. destruct cgo as [cg|]; [|done].
    destruct (add_link p t cg) as [[[]| |] cg2] eqn:Hlink; try done.
    intros [= <- <-] [Hpos Hdense]. split; [done|].
    intros cg' [= <-] m. simpl.
    rewrite <- (Hdense cg eq_refl m).
    pose proof (f_equal snd Hlink) as Hsnd. simpl in Hsnd.
    rewrite add_link_result in Hsnd. rewrite <- Hsnd.
    destruct (_ && _); simpl; [|done]. by rewrite lookup_alter_is_Some.
Qed.

Lemma visit_children_dense cur refs :
  ∀ loc c loc' c',
  visit_children cur refs loc c = (Ok loc', c') → dense c → dense c'.
Proof.
  induction refs as [|r refs IH]; intros loc c loc' c'; simpl; unfold_M.
  - by intros [= <- <-].
  - destruct (visit_child cur r loc c) as [[loc1| |] c1] eqn:E; try done.
    intros Hrun Hd. eapply IH; [exact Hrun|].
    by eapply visit_child_dense.
Qed.

Lemma traverse_dense fuel :
  ∀ loc c loc' c',
  traverse fuel loc c = (Ok loc', c') → dense c → dense c'.
Proof.
  induction fuel as [|fuel IH]; intros loc c loc' c'; simpl.
  - destruct (queue loc); [|done]. unfold_M. by intros [= <- <-].
  - destruct (queue loc) as [|cur rest]; [unfold_M; by intros [= <- <-]|].
    unfold_M.
    destruct (visit_children cur (elements (children cur))
                (mkLocals (visited loc) rest) c) as [[loc1| |] c1] eqn:E;
      try done.
    intros Hrun Hd. eapply IH; [exact Hrun|].
    by eapply visit_children_dense.
Qed.

Lemma clone_traversal_dense fuel g loc c' :
  clone_traversal fuel (EntityCloner_init g) = (Ok loc, c') → dense c'.
Proof.
  unfold clone_traversal, EntityCloner_init. unfold_M.
  destruct (generate_id_least g None 0) as (n' & Hlt & Hgen & Hfree & Hleast).
  rewrite Hgen. simpl. unfold set_cloned_graph. simpl.
  destruct (get_start g) as [cur|]; [|done].
  rewrite (on_cloned_run _ _ _ _ _ _
             (add_entity_new (EntityGraph_init n') n' (name cur)
                (description cur) (lookup_empty _))).
  intros Hrun. eapply traverse_dense; [exact Hrun|].
  split; [simpl; lia|]. intros cg [= <-] m. simpl.
  assert (entities g !! n' = None) as Hg.
  { apply not_elem_of_dom. intros H. apply Hfree. unfold ids_used.
    apply elem_of_union. by left. }
  rewrite lookup_insert_is_Some, lookup_empty. split.
  - intros [<-|[_ H]]; [split; [lia|done]|by destruct H].
  - intros [Hm Hgm]. left. destruct (decide (n' = m)) as [|Hne]; [done|].
    assert (m ∈ ids_used g None) as Hin by (apply Hleast; lia).
    unfold ids_used in Hin. apply elem_of_union in Hin as [Hin|Hin].
    + apply elem_of_dom in Hin. rewrite Hgm in Hin. by destruct Hin.
    + by apply elem_of_empty in Hin.
Qed.

(** ** Cloning from a start that is not an entity *)

Lemma clone_subgraph_no_start fuel g :
  entities g !! start g = None →
  ∃ n, 0 < n ∧ entities g !! n = None
       ∧ (∀ m, 0 < m < n → is_Some (entities g !! m))
       ∧ clone_subgraph fuel (EntityCloner_init g)
         = (Raise AttributeError, mkCloner g (Some (EntityGraph_init n)) n).
Proof.
  intros Hs.
  destruct (generate_id_least g None 0) as (n & Hlt & Hgen & Hfree & Hleast).
  exists n. split; [done|]. split; [|split].
  - apply not_elem_of_dom. intros H. apply Hfree. unfold ids_used.
    apply elem_of_union. by left.
  - intros m Hm. specialize (Hleast m Hm). unfold ids_used in Hleast.
    apply elem_of_union in Hleast as [H|H]; [by apply elem_of_dom|].
    by apply elem_of_empty in H.
  - unfold clone_subgraph, clone_traversal, EntityCloner_init. unfold_M.
    rewrite Hgen. simpl. unfold get_start, get_entity. by rewrite Hs.
Qed.

(** ** What [to_dict] emits *)

Lemma values_NoDup (g : EntityGraph) : wf g → NoDup (values (entities g)).
Proof.
  intros Hwf. unfold values.
  apply NoDup_fmap_2_strong; [|apply NoDup_map_to_list].
  intros [k1 e1] [k2 e2] H1 H2 Heq. simpl in Heq. subst e2.
  apply elem_of_map_to_list in H1, H2. f_equal.
  rewrite <- (wf_id g Hwf _ _ H1). by apply (wf_id g Hwf).
Qed.

Lemma to_dict_links_NoDup (g : EntityGraph) :
  wf g → NoDup (d_links (EntityGraph_to_dict g)).
Proof.
  intros Hwf. unfold EntityGraph_to_dict. simpl. apply NoDup_bind.
  - intros e1 e2 l He1 He2 Hl1 Hl2.
    apply elem_of_values in He1 as [k1 Hk1], He2 as [k2 Hk2].
    unfold entity_links in Hl1, Hl2.
    apply list_elem_of_fmap in Hl1 as (c1 & -> & _).
    apply list_elem_of_fmap in Hl2 as (c2 & [= Hid _] & _).
    rewrite (wf_id g Hwf _ _ Hk1), (wf_id g Hwf _ _ Hk2) in Hid. subst k2.
    congruence.
  - intros e _. unfold entity_links.
    apply NoDup_fmap_2; [|apply NoDup_elements].
    intros c1 c2 H. by injection H.
  - by apply values_NoDup.
Qed.

Lemma to_dict_entities (g : EntityGraph) (r : EntityRecord) :
  wf g →
  r ∈ d_entities (EntityGraph_to_dict g)
  ↔ ∃ e, entities g !! r_entity_id r = Some e ∧ r = Entity_to_dict e.
Proof.
  intros Hwf. unfold EntityGraph_to_dict. simpl. rewrite list_elem_of_fmap.
  split.
  - intros (e & -> & He). apply elem_of_values in He as [k Hk].
    exists e. split; [|done]. simpl. by rewrite (wf_id g Hwf _ _ Hk).
  - intros (e & He & ->). exists e. split; [done|].
    apply elem_of_values. eauto.
Qed.

Lemma to_dict_length (g : EntityGraph) :
  length (d_entities (EntityGraph_to_dict g)) = size (entities g).
Proof.
  unfold EntityGraph_to_dict, values. simpl.
  by rewrite !length_fmap, length_map_to_list.
Qed.

(** ** What [build_from_data] builds *)

Lemma build_content (s : Z) (data : Data) (inst : EntityGraph) :
  build_from_data s data = Ok inst →
  NoDup (ids_of data) ∧ s ∈ ids_of data ∧ wf inst ∧ start inst = s
  ∧ (∀ k, is_Some (entities inst !! k) ↔ k ∈ ids_of data)
  ∧ (∀ r, r ∈ d_entities data →
       ∃ e, entities inst !! r_entity_id r = Some e
            ∧ entity_id e = r_entity_id r ∧ name e = r_name r
            ∧ description e = r_description r)
  ∧ (∀ u w, edge inst u w
            ↔ ∃ l, l ∈ d_links data ∧ l_from l = u ∧ l_to l = w).
Proof.
  intros Hbuild.
  destruct (build_from_data_cases s data)
    as [[_ (k & Hk)]
       |[(_ & _ & Hk)|[(_ & _ & _ & k & _ & Hk)|(Hnd & Hs & Hl & Hok)]]];
    try congruence.
  rewrite Hok in Hbuild. injection Hbuild as <-.
  split; [done|]. split; [done|]. split; [apply graph_of_wf|].
  split; [apply graph_of_start|].
  set (g1 := after_calls (entity_call <$> d_entities data)
               (EntityGraph_init s)).
  assert (graph_of s (calls_of data)
          = after_calls (link_call <$> d_links data) g1) as ->.
  { unfold graph_of, calls_of. by rewrite after_calls_app. }
  assert (∀ k e1, entities g1 !! k = Some e1
          ↔ ∃ r, r ∈ d_entities data ∧ r_entity_id r = k
                 ∧ e1 = Entity_init k (r_name r) (r_description r)) as Hg1.
  { intros k e1. unfold g1.
    rewrite (after_entity_calls_lookup (d_entities data)
               (EntityGraph_init s) k e1 Hnd); [|intros; apply lookup_empty].
    simpl. rewrite lookup_empty. split; [intros [?|?]; done|auto]. }
  assert (∀ k, is_Some (entities g1 !! k) ↔ k ∈ ids_of data) as Hdom1.
  { intros k. unfold ids_of. rewrite list_elem_of_fmap. split.
    - intros [e1 He1]. apply Hg1 in He1 as (r & Hr & <- & _). eauto.
    - intros (r & -> & Hr). eexists. apply Hg1. eauto. }
  destruct (after_link_calls (d_links data) g1) as (Hent & Hnone & Hedge).
  { apply Forall_forall. intros l Hin.
    rewrite Forall_forall in Hl. destruct (Hl l Hin) as [Hf Ht].
    by rewrite !Hdom1. }
  split; [|split].
  - intros k. rewrite <- Hdom1. split.
    + intros Hk. destruct (entities g1 !! k) eqn:E; [eauto|].
      rewrite (Hnone k E) in Hk. by destruct Hk.
    + intros [e1 He1]. destruct (Hent k e1 He1) as (e' & He' & _). eauto.
  - intros r Hr.
    destruct (Hent (r_entity_id r)
                (Entity_init (r_entity_id r) (r_name r) (r_description r)))
      as (e' & He' & Hi & Hn & Hd).
    { apply Hg1. eauto. }
    exists e'. done.
  - intros u w. rewrite Hedge. split; [|auto].
    intros [(e1 & He1 & Hw)|?]; [|done].
    apply Hg1 in He1 as (r & _ & _ & ->). simpl in Hw.
    by apply elem_of_empty in Hw.
Qed.

Lemma build_size (s : Z) (data : Data) (inst : EntityGraph) :
  build_from_data s data = Ok inst →
  size (entities inst) = length (d_entities data).
Proof.
  intros Hbuild.
  destruct (build_content s data inst Hbuild) as (Hnd & _ & _ & _ & Hdom & _).
  assert (dom (entities inst) = list_to_set (ids_of data)) as Hd.
  { apply set_eq. intros k. by rewrite elem_of_dom, elem_of_list_to_set. }
  rewrite <- (size_dom (D := gset Z)), Hd, size_list_to_set by done.
  unfold ids_of. by rewrite length_fmap.
Qed.

(** ** From a record to a graph and back *)

Lemma to_dict_of_build (s : Z) (data : Data) (inst : EntityGraph) :
  build_from_data s data = Ok inst →
  (∀ r', r' ∈ d_entities (EntityGraph_to_dict inst)
         ↔ ∃ r, r ∈ d_entities data ∧ r' = normalize_record r)
  ∧ (∀ l, l ∈ d_links (EntityGraph_to_dict inst) ↔ l ∈ d_links data).
Proof.
  intros Hbuild.
  destruct (build_content s data inst Hbuild)
    as (Hnd & _ & Hwf & _ & Hdom & Hent & Hedge).
  split.
  - intros r'. rewrite (to_dict_entities inst r' Hwf). split.
    + intros (e & He & ->). simpl in He.
      assert (entity_id e ∈ ids_of data) as Hin by (apply Hdom; eauto).
      unfold ids_of in Hin. apply list_elem_of_fmap in Hin as (r & Hid & Hr).
      destruct (Hent r Hr) as (e' & He' & Hi & Hn & Hd).
      rewrite <- Hid, He in He'. injection He' as <-.
      exists r. split; [done|].
      unfold Entity_to_dict, normalize_record. by rewrite Hi, Hn, Hd.
    + intros (r & Hr & ->). destruct (Hent r Hr) as (e & He & Hi & Hn & Hd).
      exists e. split; [done|].
      unfold Entity_to_dict, normalize_record. by rewrite Hi, Hn, Hd.
  - intros l. rewrite (to_dict_links inst l Hwf), Hedge. split.
    + intros (l' & Hl' & Hf & Ht). destruct l, l'. simpl in *. by subst.
    + intros Hl. eauto.
Qed.

(** ** The graph [clone_subgraph] returns *)

Lemma clone_result (g : EntityGraph) (fuel : nat) cg c' :
  wf g → is_Some (entities g !! start g) →
  clone_subgraph fuel (EntityCloner_init g) = (Ok cg, c') →
  ∃ v n,
    c' = mkCloner g (Some cg) n
    ∧ clone_traversal fuel (EntityCloner_init g) = (Ok (mkLocals v []), c')
    ∧ clone_inv g cg v (pending 0 [] [])
    ∧ v !! start g = Some (start cg)
    ∧ wf cg ∧ dense c'.
Proof.
  intros Hwf Hs Hrun.
  destruct (clone_traversal_spec g Hwf Hs) as (cg0 & n & v & Hinv & Hst & Hf).
  destruct (Hf fuel) as [Hok Hout].
  destruct (decide (size v ≤ fuel)%nat) as [Hle|Hgt].
  - specialize (Hok Hle).
    rewrite (clone_subgraph_of_traversal _ _ _ _ _ _ Hok) in Hrun.
    injection Hrun as <- <-. exists v, n.
    split; [done|]. split; [done|]. split; [done|]. split; [done|]. split.
    + apply (clone_traversal_wf fuel (EntityCloner_init g)). by rewrite Hok.
    + by eapply clone_traversal_dense.
  - assert (fst (clone_subgraph fuel (EntityCloner_init g)) = OutOfFuel) as H.
    { apply clone_subgraph_out_of_fuel, Hout. lia. }
    by rewrite Hrun in H.
Qed.

Lemma clone_start_parents (g cg : EntityGraph) (v : gmap Z Z) :
  wf g → wf cg → clone_inv g cg v (pending 0 [] []) →
  v !! start g = Some (start cg) →
  ∀ p', p' ∈ start_parents cg
        ↔ ∃ p, p ∈ start_parents g ∧ v !! p = Some p'.
Proof.
  intros Hwf Hwfc Hinv Hst p'.
  rewrite (wf_start_parents cg Hwfc). split.
  - intros Hedge.
    destruct (inv_sound _ _ _ _ Hinv _ _ Hedge) as (u & w & Hu & Hw & Huw).
    rewrite (inv_inj _ _ _ _ Hinv w (start g) _ Hw Hst) in Huw.
    exists u. split; [|done]. by apply (wf_start_parents g Hwf).
  - intros (p & Hp & Hvp). apply (wf_start_parents g Hwf) in Hp.
    destruct (inv_complete _ _ _ _ Hinv p p' (start g) Hvp Hp)
      as (w' & Hw' & Hedge).
    { intros [[_ Hin]|Hin]; by apply elem_of_nil in Hin. }
    congruence.
Qed.

(** ** The output of the script *)

Lemma output_ids (initial cloned : EntityGraph) :
  ids_of (construct_output initial cloned)
  = ids_of (EntityGraph_to_dict initial) ++ ids_of (EntityGraph_to_dict cloned).
Proof. unfold ids_of, construct_output. simpl. by rewrite fmap_app. Qed.

Lemma output_valid (g cg : EntityGraph) :
  wf g → wf cg →
  (∀ k, is_Some (entities cg !! k) → entities g !! k = None) →
  is_Some (entities cg !! start cg) →
  let out := construct_output g cg in
  NoDup (ids_of out)
  ∧ (∀ k, k ∈ ids_of out
          ↔ is_Some (entities g !! k) ∨ is_Some (entities cg !! k))
  ∧ NoDup (d_links out)
  ∧ (∀ l, l ∈ d_links out
          ↔ edge g (l_from l) (l_to l) ∨ edge cg (l_from l) (l_to l)
            ∨ (l_from l ∈ start_parents g ∧ l_to l = start cg))
  ∧ Forall (λ l, l_from l ∈ ids_of out ∧ l_to l ∈ ids_of out) (d_links out).
Proof.
  intros Hwf Hwfc Hfresh Hstart out.
  destruct (to_dict_ids g Hwf) as [Hnd1 Hin1].
  destruct (to_dict_ids cg Hwfc) as [Hnd2 Hin2].
  destruct (bridging_links g cg) as [Hnd3 Hin3].
  assert (∀ k, k ∈ ids_of out
          ↔ is_Some (entities g !! k) ∨ is_Some (entities cg !! k)) as Hids.
  { intros k. unfold out. by rewrite output_ids, elem_of_app, Hin1, Hin2. }
  assert (∀ l, l ∈ d_links out
          ↔ edge g (l_from l) (l_to l) ∨ edge cg (l_from l) (l_to l)
            ∨ (l_from l ∈ start_parents g ∧ l_to l = start cg)) as Hlinks.
  { intros l. unfold out, construct_output. simpl.
    rewrite !elem_of_app, (to_dict_links g l Hwf), (to_dict_links cg l Hwfc).
    rewrite Hin3. tauto. }
  assert (∀ u w, edge g u w
                 → is_Some (entities g !! u) ∧ is_Some (entities g !! w))
    as Hends.
  { intros u w (e & He & Hw). split; [eauto|].
    by apply (wf_children g Hwf _ _ _ He). }
  assert (∀ u w, edge cg u w
                 → is_Some (entities cg !! u) ∧ is_Some (entities cg !! w))
    as Hendsc.
  { intros u w (e & He & Hw). split; [eauto|].
    by apply (wf_children cg Hwfc _ _ _ He). }
  assert (∀ p, p ∈ start_parents g → is_Some (entities g !! p)) as Hsp.
  { intros p Hp. apply (wf_start_parents g Hwf) in Hp.
    by apply Hends in Hp as [? _]. }
  split; [|split; [done|split; [|split; [done|]]]].
  - unfold out. rewrite output_ids. apply NoDup_app. split; [done|].
    split; [|done]. intros k Hk1 Hk2. apply Hin1 in Hk1. apply Hin2 in Hk2.
    rewrite (Hfresh k Hk2) in Hk1. by destruct Hk1.
  - unfold out, construct_output. simpl. apply NoDup_app.
    split; [by apply to_dict_links_NoDup|]. split.
    + intros l Hl1 Hl2. apply (to_dict_links g l Hwf) in Hl1.
      apply Hends in Hl1 as [Hf Ht].
      apply elem_of_app in Hl2 as [Hl2|Hl2].
      * apply (to_dict_links cg l Hwfc), Hendsc in Hl2 as [Hf2 _].
        rewrite (Hfresh _ Hf2) in Hf. by destruct Hf.
      * apply Hin3 in Hl2 as [Hto _]. rewrite Hto in Ht.
        rewrite (Hfresh _ Hstart) in Ht. by destruct Ht.
    + apply NoDup_app. split; [by apply to_dict_links_NoDup|].
      split; [|done]. intros l Hl1 Hl2.
      apply (to_dict_links cg l Hwfc), Hendsc in Hl1 as [Hf _].
      apply Hin3 in Hl2 as [_ Hp]. apply Hsp in Hp.
      rewrite (Hfresh _ Hf) in Hp. by destruct Hp.
  - apply Forall_forall. intros l Hl. apply Hlinks in Hl. rewrite !Hids.
    destruct Hl as [Hl|[Hl|[Hp Hto]]].
    + apply Hends in Hl as [? ?]. auto.
    + apply Hendsc in Hl as [? ?]. auto.
    + rewrite Hto. auto.
Qed.

Lemma main_cases (s : Z) (data : Data) (fuel : nat) :
  (∃ e, build_from_data s data = Raise e ∧ main s data fuel = Raise e)
  ∨ ∃ inst, build_from_data s data = Ok inst
            ∧ ((∃ cg c', clone_subgraph fuel (EntityCloner_init inst)
                         = (Ok cg, c')
                         ∧ main s data fuel = Ok (construct_output inst cg))
               ∨ ((fuel < length (d_entities data))%nat
                  ∧ main s data fuel = OutOfFuel)).
Proof.
  unfold main.
  destruct (build_from_data_cases s data)
    as [[_ (k & Hk)]
       |[(_ & _ & Hk)|[(_ & _ & _ & k & _ & Hk)|(Hnd & Hs & Hl & Hok)]]];
    rewrite ?Hk; eauto.
  right. exists (graph_of s (calls_of data)). split; [done|]. rewrite Hok.
  pose proof (build_size s data _ Hok) as Hsize.
  pose proof (build_content s data _ Hok) as (_ & _ & Hwf & Hst & Hdom & _).
  assert (is_Some (entities (graph_of s (calls_of data))
                     !! start (graph_of s (calls_of data)))) as Hstart.
  { rewrite Hst. by apply Hdom. }
  destruct (clone_traversal_spec _ Hwf Hstart) as (cg & n & v & Hinv & _ & Hf).
  pose proof (clone_inv_visited_size _ _ _ _ Hinv) as Hsz.
  destruct (Hf fuel) as [Hrun Hout].
  destruct (decide (size v ≤ fuel)%nat) as [Hle|Hgt].
  - left. specialize (Hrun Hle).
    rewrite (clone_subgraph_of_traversal _ _ _ _ _ _ Hrun). eauto.
  - right. split; [lia|].
    assert (fst (clone_subgraph fuel
                   (EntityCloner_init (graph_of s (calls_of data))))
            = OutOfFuel) as H.
    { apply clone_subgraph_out_of_fuel, Hout. lia. }
    destruct (clone_subgraph _ _) as [[| |] c']; by simpl in H.
Qed.

(** ** Empty descriptions and the serialized form *)




(** * Further properties of the program *)

(** X1: two entities are equal exactly when their ids, names and
    descriptions agree, whatever their children; this is an equivalence,
    equal entities have the same hash, and linking a child to an entity
    leaves it equal to what it was, with the same hash. *)
Theorem Entity_eq_hash_contract (hash : Z * string * option string → Z)
    (a b c : Entity) (k : Z) :
  (Entity_eq a b = true
   ↔ entity_id a = entity_id b ∧ name a = name b
     ∧ description a = description b)
  ∧ Entity_eq a a = true
  ∧ Entity_eq a b = Entity_eq b a
  ∧ (Entity_eq a b = true → Entity_eq b c = true → Entity_eq a c = true)
  ∧ (Entity_eq a b = true → Entity_hash hash a = Entity_hash hash b)
  ∧ Entity_eq (add_child k a) a = true
  ∧ Entity_hash hash (add_child k a) = Entity_hash hash a.
Proof.
  split; [apply Entity_eq_spec|]. split; [by apply Entity_eq_spec|].
  split.
  { destruct (Entity_eq a b) eqn:E1, (Entity_eq b a) eqn:E2; try done.
    - apply Entity_eq_spec in E1 as (? & ? & ?).
      assert (Entity_eq b a = true) by (by apply Entity_eq_spec). congruence.
    - apply Entity_eq_spec in E2 as (? & ? & ?).
      assert (Entity_eq a b = true) by (by apply Entity_eq_spec). congruence. }
  split.
  { rewrite !Entity_eq_spec. intros (? & ? & ?) (? & ? & ?).
    split; [congruence|]. split; congruence. }
  split.
  { rewrite Entity_eq_spec. intros (Hi & Hn & Hd). unfold Entity_hash.
    by rewrite Hi, Hn, Hd. }
  split; [by apply Entity_eq_spec|done].
Qed.

(** X2: every graph object keeps its start, stores each entity under the
    entity's own id, links only entities it holds, and has in
    [start_parents] exactly the sources of the links into its start;
    [has_entity] says whether [get_entity] finds an entity. *)
Theorem graph_object_invariants (s : Z) (calls : list call) :
  let g := graph_of s calls in
  start g = s
  ∧ (∀ k, has_entity g k = true
          ↔ ∃ e, get_entity g k = Some e ∧ entity_id e = k)
  ∧ (∀ k, has_entity g k = false ↔ get_entity g k = None)
  ∧ (∀ u w, edge g u w → has_entity g u = true ∧ has_entity g w = true)
  ∧ (∀ p, p ∈ start_parents g ↔ edge g p s)
  ∧ (∀ p, p ∈ start_parents g
          → has_entity g p = true ∧ has_entity g s = true).
Proof.
  intros g. pose proof (graph_of_wf s calls) as Hwf. fold g in Hwf.
  pose proof (graph_of_start s calls) as Hst. fold g in Hst.
  assert (∀ u w, edge g u w → has_entity g u = true ∧ has_entity g w = true)
    as Hends.
  { intros u w (e & He & Hw). unfold has_entity. rewrite !contains_true.
    split; [eauto|]. by apply (wf_children g Hwf _ _ _ He). }
  split; [done|]. split; [|split; [|split; [done|split]]].
  - intros k. unfold has_entity, get_entity. rewrite contains_true. split.
    + intros [e He]. exists e. split; [done|]. by apply (wf_id g Hwf).
    + intros (e & He & _). eauto.
  - intros k. apply contains_false.
  - intros p. rewrite <- Hst. apply (wf_start_parents g Hwf).
  - intros p Hp. apply (wf_start_parents g Hwf) in Hp. rewrite Hst in Hp.
    by apply Hends.
Qed.

(** X3: calls of [add_entity] and [add_link], failed or not, only add: the
    start stays, an entity stays under its id and equal to what it was,
    with at least the children it had, no link disappears and no id leaves
    [start_parents]. *)
Theorem calls_only_add (g : EntityGraph) (calls : list call) :
  let g' := after_calls calls g in
  start g' = start g
  ∧ (∀ k e, get_entity g k = Some e →
       ∃ e', get_entity g' k = Some e' ∧ Entity_eq e' e = true
             ∧ children e ⊆ children e')
  ∧ (∀ u w, edge g u w → edge g' u w)
  ∧ start_parents g ⊆ start_parents g'.
Proof.
  intros g'. destruct (after_calls_grows calls g) as [Hent Hsp].
  split; [apply after_calls_start|]. split; [|split; [|done]].
  - intros k e He. destruct (Hent k e He) as (e' & He' & Hi & Hn & Hd & Hc).
    exists e'. split; [done|]. split; [by apply Entity_eq_spec|done].
  - intros u w (e & He & Hw).
    destruct (Hent u e He) as (e' & He' & _ & _ & _ & Hc).
    exists e'. split; [done|]. by apply Hc.
Qed.

(** X4: [add_link] on a set of children: linking the same pair twice
    leaves the graph as linking it once, and two [add_link] calls made in
    either order leave the same graph, whether or not they raise. *)
Theorem add_link_idempotent_commutes (g : EntityGraph) (a b c d : Z) :
  snd (add_link a b (snd (add_link a b g))) = snd (add_link a b g)
  ∧ snd (add_link c d (snd (add_link a b g)))
    = snd (add_link a b (snd (add_link c d g))).
Proof. split; [apply add_link_twice|apply add_link_swap]. Qed.

(** X5: from any cloner state [generate_id] returns the least integer above
    the counter that is the id of no entity of the initial graph and of no
    entity of the cloned graph: every integer in between is taken.  It
    moves the counter to that id and changes nothing else. *)
Theorem generate_id_least_free (c : EntityCloner) :
  ∃ n, generate_id c = (Ok n, set_current_id n c)
       ∧ current_id c < n
       ∧ id_taken (set_current_id n c) = false
       ∧ ∀ m, current_id c < m < n → id_taken (set_current_id m c) = true.
Proof.
  destruct c as [g cgo n0].
  destruct (generate_id_least g cgo n0) as (n & Hlt & Hgen & Hfree & Hleast).
  exists n. split; [done|]. split; [done|]. unfold set_current_id. simpl.
  split.
  - destruct (id_taken (mkCloner g cgo n)) eqn:E; [|done].
    apply id_taken_spec in E. done.
  - intros m Hm. by apply id_taken_spec, Hleast.
Qed.

(** X6: when the start of the initial graph is not one of its entities,
    [clone_subgraph] raises an [AttributeError] on [None], but only after
    it generated the first free id and made an empty cloned graph with
    that id as start: both are left in the cloner. *)
Theorem clone_subgraph_missing_start (g : EntityGraph) (fuel : nat) :
  has_entity g (start g) = false →
  ∃ n, 0 < n ∧ has_entity g n = false
       ∧ (∀ m, 0 < m < n → has_entity g m = true)
       ∧ clone_subgraph fuel (EntityCloner_init g)
         = (Raise AttributeError, mkCloner g (Some (EntityGraph_init n)) n).
Proof.
  intros Hs. apply contains_false in Hs.
  destruct (clone_subgraph_no_start fuel g Hs) as (n & Hn & Hg & Hleast & Hrun).
  exists n. split; [done|]. split; [by apply contains_false|].
  split; [|done]. intros m Hm. by apply contains_true, Hleast.
Qed.

Lemma clone_subgraph_missing_start_witness :
  has_entity startless_graph (start startless_graph) = false
  ∧ ∃ n, clone_subgraph 0 (EntityCloner_init startless_graph)
         = (Raise AttributeError,
            mkCloner startless_graph (Some (EntityGraph_init n)) n).
Proof.
  split; [vm_compute; reflexivity|].
  destruct (clone_subgraph_missing_start startless_graph 0)
    as (n & _ & _ & _ & Hrun); [vm_compute; reflexivity|].
  by exists n.
Defined.

Lemma clone_run (s : Z) (calls : list call) (fuel : nat) :
  has_entity (graph_of s calls) s = true →
  (size (entities (graph_of s calls)) ≤ fuel)%nat →
  ∃ cg c', clone_subgraph fuel (EntityCloner_init (graph_of s calls))
           = (Ok cg, c').
Proof.
  intros Hs Hfuel. pose proof (graph_of_wf s calls) as Hwf.
  destruct (clone_traversal_spec _ Hwf (graph_of_has_start s calls Hs))
    as (cg & n & v & Hinv & _ & Hrun).
  pose proof (clone_inv_visited_size _ _ _ _ Hinv) as Hsz.
  destruct (Hrun fuel) as [Hok _]. eexists _, _.
  eapply clone_subgraph_of_traversal. apply Hok. lia.
Qed.

(** X7: the graph [clone_subgraph] returns is a graph object like any
    other: its start is the clone of the initial start and one of its
    entities, every entity is stored under its own id, every link joins two
    of its entities, and its [start_parents] are the sources of the links
    into its start, which are exactly the clones of the visited parents of
    the initial start. *)
Theorem clone_subgraph_graph_object (s : Z) (calls : list call) (fuel : nat) :
  let g := graph_of s calls in
  has_entity g s = true →
  (size (entities g) ≤ fuel)%nat →
  ∃ cg loc c',
    clone_subgraph fuel (EntityCloner_init g) = (Ok cg, c')
    ∧ clone_traversal fuel (EntityCloner_init g) = (Ok loc, c')
    ∧ visited loc !! s = Some (start cg)
    ∧ has_entity cg (start cg) = true
    ∧ (∀ k e, get_entity cg k = Some e → entity_id e = k)
    ∧ (∀ u w, edge cg u w → has_entity cg u = true ∧ has_entity cg w = true)
    ∧ (∀ p', p' ∈ start_parents cg ↔ edge cg p' (start cg))
    ∧ (∀ p', p' ∈ start_parents cg
             ↔ ∃ p, p ∈ start_parents g ∧ visited loc !! p = Some p').
Proof.
  intros g Hs Hfuel.
  pose proof (graph_of_wf s calls) as Hwf. fold g in Hwf.
  pose proof (graph_of_has_start s calls Hs) as Hstart. fold g in Hstart.
  pose proof (graph_of_start s calls) as Hst. fold g in Hst.
  destruct (clone_run s calls fuel Hs Hfuel) as (cg & c' & Hrun). fold g in Hrun.
  destruct (clone_result g fuel cg c' Hwf Hstart Hrun)
    as (v & n & -> & Htrav & Hinv & Hvs & Hwfc & _).
  exists cg, (mkLocals v []), (mkCloner g (Some cg) n).
  split; [done|]. split; [done|]. simpl. rewrite Hst in Hvs.
  split; [done|]. split.
  { apply contains_true.
    destruct (inv_entity _ _ _ _ Hinv _ _ Hvs) as (? & ? & ? & ? & _). eauto. }
  split; [apply (wf_id cg Hwfc)|]. split.
  { intros u w (e & He & Hw). unfold has_entity. rewrite !contains_true.
    split; [eauto|]. by apply (wf_children cg Hwfc _ _ _ He). }
  split; [apply (wf_start_parents cg Hwfc)|].
  apply (clone_start_parents g cg v Hwf Hwfc Hinv). by rewrite Hst.
Qed.

Lemma clone_subgraph_graph_object_witness :
  has_entity cycle_graph 1 = true
  ∧ (size (entities cycle_graph) ≤ 3)%nat
  ∧ ∃ cg loc c',
      clone_subgraph 3 (EntityCloner_init cycle_graph) = (Ok cg, c')
      ∧ clone_traversal 3 (EntityCloner_init cycle_graph) = (Ok loc, c')
      ∧ visited loc !! 1 = Some (start cg)
      ∧ has_entity cg (start cg) = true.
Proof.
  split; [vm_compute; reflexivity|]. split; [vm_compute; lia|].
  destruct (clone_subgraph_graph_object 1 cycle_calls 3)
    as (cg & loc & c' & H1 & H2 & H3 & H4 & _);
    [vm_compute; reflexivity|vm_compute; lia|].
  exists cg, loc, c'. auto.
Defined.

(** X8: the ids of the cloned graph are the positive integers up to the
    cloner's counter that are ids of no entity of the initial graph: the
    clone takes the free ids from 1 on and skips none. *)
Theorem clone_subgraph_ids_least_free (s : Z) (calls : list call)
    (fuel : nat) :
  let g := graph_of s calls in
  has_entity g s = true →
  (size (entities g) ≤ fuel)%nat →
  ∃ cg c',
    clone_subgraph fuel (EntityCloner_init g) = (Ok cg, c')
    ∧ (∀ m, has_entity cg m = true
            ↔ 0 < m ≤ current_id c' ∧ has_entity g m = false)
    ∧ (∀ m m', has_entity cg m' = true → 0 < m < m' →
               has_entity g m = false → has_entity cg m = true).
Proof.
  intros g Hs Hfuel.
  pose proof (graph_of_wf s calls) as Hwf. fold g in Hwf.
  pose proof (graph_of_has_start s calls Hs) as Hstart. fold g in Hstart.
  destruct (clone_run s calls fuel Hs Hfuel) as (cg & c' & Hrun). fold g in Hrun.
  destruct (clone_result g fuel cg c' Hwf Hstart Hrun)
    as (v & n & -> & _ & _ & _ & _ & [_ Hdense]).
  exists cg, (mkCloner g (Some cg) n). split; [done|].
  assert (∀ m, has_entity cg m = true
               ↔ 0 < m ≤ n ∧ has_entity g m = false) as Hids.
  { intros m. unfold has_entity. rewrite contains_true, contains_false.
    apply (Hdense cg eq_refl m). }
  split; [done|]. intros m m' Hm' Hm Hg.
  apply Hids in Hm' as [Hle _]. apply Hids. split; [lia|done].
Qed.

Lemma clone_subgraph_ids_least_free_witness :
  has_entity cycle_graph 1 = true
  ∧ (size (entities cycle_graph) ≤ 3)%nat
  ∧ ∃ cg c',
      clone_subgraph 3 (EntityCloner_init cycle_graph) = (Ok cg, c')
      ∧ ∀ m, has_entity cg m = true
             ↔ 0 < m ≤ current_id c' ∧ has_entity cycle_graph m = false.
Proof.
  split; [vm_compute; reflexivity|]. split; [vm_compute; lia|].
  destruct (clone_subgraph_ids_least_free 1 cycle_calls 3)
    as (cg & c' & H1 & H2 & _);
    [vm_compute; reflexivity|vm_compute; lia|].
  exists cg, c'. auto.
Defined.

(** X9: [to_dict] of a graph object emits one record per entity, each the
    [to_dict] of the entity stored under its id, with no id twice, and one
    link per link of the graph, none twice. *)
Theorem to_dict_records (s : Z) (calls : list call) :
  let g := graph_of s calls in
  let d := EntityGraph_to_dict g in
  length (d_entities d) = size (entities g)
  ∧ NoDup (ids_of d)
  ∧ (∀ r, r ∈ d_entities d
          ↔ ∃ e, get_entity g (r_entity_id r) = Some e
                 ∧ r = Entity_to_dict e)
  ∧ NoDup (d_links d)
  ∧ (∀ l, l ∈ d_links d ↔ edge g (l_from l) (l_to l)).
Proof.
  intros g d. pose proof (graph_of_wf s calls) as Hwf. fold g in Hwf.
  split; [apply to_dict_length|]. split; [by apply to_dict_ids|].
  split; [intros r; by apply to_dict_entities|].
  split; [by apply to_dict_links_NoDup|]. intros l. by apply to_dict_links.
Qed.

(** X10: a graph [build_from_data] returns has the requested start, which
    [get_start] finds; it holds exactly one entity per supplied record,
    with the record's id, name and description; its links are exactly the
    supplied links, and its [start_parents] the sources of the supplied
    links into the start. *)
Theorem build_from_data_content (s : Z) (data : Data) (inst : EntityGraph) :
  build_from_data s data = Ok inst →
  start inst = s
  ∧ (∃ e, get_start inst = Some e ∧ entity_id e = s)
  ∧ size (entities inst) = length (d_entities data)
  ∧ (∀ k, has_entity inst k = true ↔ k ∈ ids_of data)
  ∧ (∀ r, r ∈ d_entities data →
       ∃ e, get_entity inst (r_entity_id r) = Some e
            ∧ entity_id e = r_entity_id r ∧ name e = r_name r
            ∧ description e = r_description r)
  ∧ (∀ u w, edge inst u w
            ↔ ∃ l, l ∈ d_links data ∧ l_from l = u ∧ l_to l = w)
  ∧ (∀ p, p ∈ start_parents inst
          ↔ ∃ l, l ∈ d_links data ∧ l_from l = p ∧ l_to l = s).
Proof.
  intros Hbuild.
  destruct (build_content s data inst Hbuild)
    as (Hnd & Hs & Hwf & Hst & Hdom & Hent & Hedge).
  split; [done|]. split.
  { apply Hdom in Hs as [e He]. exists e. unfold get_start, get_entity.
    rewrite Hst. split; [done|]. by apply (wf_id inst Hwf). }
  split; [by eapply build_size|]. split.
  { intros k. unfold has_entity. by rewrite contains_true. }
  split; [done|]. split; [done|].
  intros p. rewrite (wf_start_parents inst Hwf), Hst. apply Hedge.
Qed.

Lemma build_from_data_content_witness :
  build_from_data 2 test_data = Ok (graph_of 2 (calls_of test_data))
  ∧ size (entities (graph_of 2 (calls_of test_data)))
    = length (d_entities test_data).
Proof.
  split; [vm_compute; reflexivity|].
  apply (build_from_data_content 2 test_data). vm_compute; reflexivity.
Defined.

(** X11: serializing a graph that [build_from_data] returned gives back
    the supplied records with every empty description dropped, and the
    supplied links, up to order and repetition. *)
Theorem build_from_data_to_dict (s : Z) (data : Data) (inst : EntityGraph) :
  build_from_data s data = Ok inst →
  (∀ r', r' ∈ d_entities (EntityGraph_to_dict inst)
         ↔ ∃ r, r ∈ d_entities data ∧ r' = normalize_record r)
  ∧ length (d_entities (EntityGraph_to_dict inst)) = length (d_entities data)
  ∧ (∀ l, l ∈ d_links (EntityGraph_to_dict inst) ↔ l ∈ d_links data)
  ∧ NoDup (d_links (EntityGraph_to_dict inst)).
Proof.
  intros Hbuild. destruct (to_dict_of_build s data inst Hbuild) as [H1 H2].
  destruct (build_content s data inst Hbuild) as (_ & _ & Hwf & _).
  split; [done|]. split.
  { rewrite to_dict_length. by eapply build_size. }
  split; [done|]. by apply to_dict_links_NoDup.
Qed.

Lemma build_from_data_to_dict_witness :
  build_from_data 2 test_data = Ok (graph_of 2 (calls_of test_data))
  ∧ ∀ l, l ∈ d_links (EntityGraph_to_dict (graph_of 2 (calls_of test_data)))
         ↔ l ∈ d_links test_data.
Proof.
  split; [vm_compute; reflexivity|].
  apply (build_from_data_to_dict 2 test_data). vm_compute; reflexivity.
Defined.

(** X12: the script fails exactly as [build_from_data] fails: it raises an
    exception if and only if [build_from_data] raises it, so cloning and
    assembling the output never raise; run for at least as many dequeues as
    there are records, it returns an output whenever [build_from_data]
    returns a graph. *)
Theorem main_fails_only_in_build (s : Z) (data : Data) (fuel : nat) :
  (∀ e, main s data fuel = Raise e ↔ build_from_data s data = Raise e)
  ∧ ((length (d_entities data) ≤ fuel)%nat →
     ((∃ out, main s data fuel = Ok out)
      ↔ ∃ inst, build_from_data s data = Ok inst)).
Proof.
  destruct (main_cases s data fuel)
    as [(e0 & Hb & Hm)
       |(inst & Hb & [(cg & c' & Hc & Hm)|(Hlt & Hm)])];
    rewrite Hb, Hm.
  - split; [intros e; split; intros [= ->]; done|]. intros _.
    split; intros [? ?]; done.
  - split; [intros e; split; intros; discriminate|]. intros _.
    split; eauto.
  - split; [intros e; split; intros; discriminate|]. intros Hle. lia.
Qed.

Lemma main_fails_only_in_build_witness :
  (length (d_entities test_data) ≤ 3)%nat
  ∧ ((∃ out, main 2 test_data 3 = Ok out)
     ↔ ∃ inst, build_from_data 2 test_data = Ok inst).
Proof.
  split; [vm_compute; lia|].
  apply (main_fails_only_in_build 2 test_data 3). vm_compute; lia.
Defined.

(** X13: an output of the script is a valid input of the script: no id
    occurs twice among its entities, original or cloned, the start is among
    them, no link occurs twice, every link joins two of its entities, and
    [build_from_data] accepts it with the same start.  It holds the
    supplied records, empty descriptions dropped, and all supplied
    links. *)
Theorem main_output_valid (s : Z) (data : Data) (fuel : nat) (out : Data) :
  main s data fuel = Ok out →
  NoDup (ids_of out)
  ∧ s ∈ ids_of out
  ∧ NoDup (d_links out)
  ∧ Forall (λ l, l_from l ∈ ids_of out ∧ l_to l ∈ ids_of out) (d_links out)
  ∧ (∀ r, r ∈ d_entities data → normalize_record r ∈ d_entities out)
  ∧ (∀ l, l ∈ d_links data → l ∈ d_links out)
  ∧ ∃ inst', build_from_data s out = Ok inst'.
Proof.
  intros Hmain.
  destruct (main_cases s data fuel)
    as [(e0 & Hb & Hm)
       |(inst & Hb & [(cg & c' & Hc & Hm)|(Hlt & Hm)])];
    rewrite Hm in Hmain; try done.
  injection Hmain as <-.
  destruct (build_content s data inst Hb)
    as (_ & Hs & Hwf & Hst & Hdom & _).
  assert (is_Some (entities inst !! start inst)) as Hstart.
  { rewrite Hst. by apply Hdom. }
  destruct (clone_result inst fuel cg c' Hwf Hstart Hc)
    as (v & n & -> & _ & Hinv & Hvs & Hwfc & _).
  assert (is_Some (entities cg !! start cg)) as Hcs.
  { destruct (inv_entity _ _ _ _ Hinv _ _ Hvs) as (? & ? & ? & ? & _). eauto. }
  destruct (output_valid inst cg Hwf Hwfc (inv_fresh _ _ _ _ Hinv) Hcs)
    as (Hnd & Hids & Hndl & Hlinks & Hknown).
  destruct (to_dict_of_build s data inst Hb) as [Hrec Hlk].
  assert (s ∈ ids_of (construct_output inst cg)) as Hsin.
  { apply Hids. left. by apply Hdom. }
  split; [done|]. split; [done|]. split; [done|]. split; [done|].
  split; [|split].
  - intros r Hr. unfold construct_output. simpl. apply elem_of_app. left.
    apply Hrec. eauto.
  - intros l Hl. unfold construct_output. simpl. apply elem_of_app. left.
    by apply Hlk.
  - destruct (build_from_data_cases s (construct_output inst cg))
      as [[Hbad _]
         |[(_ & Hbad & _)|[(_ & _ & Hbad & _)|(_ & _ & _ & Hok)]]];
      try done.
    eauto.
Qed.

Lemma main_output_valid_witness :
  ∃ out, main 2 test_data 3 = Ok out
         ∧ NoDup (ids_of out)
         ∧ ∃ inst', build_from_data 2 out = Ok inst'.
Proof.
  eexists. split; [vm_compute; reflexivity|].
  match goal with
  | |- NoDup (ids_of ?o) ∧ _ =>
      destruct (main_output_valid 2 test_data 3 o)
        as (H1 & _ & _ & _ & _ & _ & H2); [vm_compute; reflexivity|]
  end.
  split; [exact H1|exact H2].
Defined.


